(** * Scraper_sc: titles and archive accessions mined from PDF files

    A shallow embedding of [get_ENA_accession_from_pdf.py] and the
    properties of its title cascade, its accession matcher and its batch
    loop.

    Conventions of the embedding.
    - A Python [str] is the list of its code points ([list N]).
    - The regular expressions of the program are terms of a small pattern
      language, run by a backtracking matcher that follows [re]: leftmost
      match, greedy quantifiers, non-overlapping scan.
    - The character tables of the interpreter that are too large to write
      down (letters, digits, case) are a parameter [db : UnicodeDB];
      white space, which is a short table, is written out.
    - The PDF library is an external collaborator: what it returned for a
      file (or the exception it raised) is part of the input. *)

From Stdlib Require Import QArith.
From stdpp Require Import base list gmap strings sorting.

Close Scope Q_scope.
Local Open Scope N_scope.
Local Open Scope list_scope.

(** ** Python strings *)

Abbreviation char := N (only parsing).
Abbreviation str := (list N) (only parsing).

(** A literal of the development, read as Basic Latin text. *)
Fixpoint text (s : string) : str :=
  match s with
  | EmptyString => []
  | String a s' => Ascii.N_of_ascii a :: text s'
  end.

Definition in_range (lo hi c : char) : bool := (lo <=? c) && (c <=? hi).

(** [str.isspace] on one code point; [\s] in [re] and [str.strip] use the
    same table. *)
Definition isspace (c : char) : bool :=
  in_range 9 13 c || in_range 28 31 c || (c =? 32) || (c =? 133) || (c =? 160)
  || (c =? 5760) || in_range 8192 8202 c || (c =? 8232) || (c =? 8233)
  || (c =? 8239) || (c =? 8287) || (c =? 12288).

Fixpoint lstrip (s : str) : str :=
  match s with
  | [] => []
  | c :: s' => if isspace c then lstrip s' else s
  end.

Definition rstrip (s : str) : str := reverse (lstrip (reverse s)).

(** [str.strip()] *)
Definition strip (s : str) : str := rstrip (lstrip s).

(** The line boundaries of [str.splitlines]. *)
Definition is_linebreak (c : char) : bool :=
  in_range 10 13 c || in_range 28 30 c || (c =? 133) || (c =? 8232) || (c =? 8233).

(** [str.splitlines()]: [cur] is the line being read, in reverse; a carriage
    return directly followed by a line feed is one boundary; no empty line
    is reported after a final boundary. *)
Fixpoint splitlines_from (cur : str) (s : str) : list str :=
  match s with
  | [] => match cur with [] => [] | _ => [reverse cur] end
  | c :: s' =>
      if is_linebreak c then
        reverse cur ::
          match s' with
          | c' :: s'' =>
              if (c =? 13) && (c' =? 10) then splitlines_from [] s''
              else splitlines_from [] s'
          | [] => splitlines_from [] s'
          end
      else splitlines_from (c :: cur) s'
  end.

Definition splitlines (s : str) : list str := splitlines_from [] s.

(** [sep.join(parts)] *)
Fixpoint join (sep : str) (parts : list str) : str :=
  match parts with
  | [] => []
  | [p] => p
  | p :: ps => p ++ sep ++ join sep ps
  end.

(** ** The character database *)

(** The tables of the interpreter the program consults besides white space.
    [u_alnum] is [str.isalnum] on one code point (so [\w] is [u_alnum] or an
    underscore), [u_decimal] is [\d], [u_isupper], [u_islower] and
    [u_istitle] are the case properties read by [str.isupper], [u_tolower]
    is the simple lower-case mapping that [re.IGNORECASE] applies, and
    [u_upper] is the full upper-case mapping of [str.upper], which may
    produce several code points. *)
Record UnicodeDB := {
  u_alnum : char -> bool;
  u_decimal : char -> bool;
  u_isupper : char -> bool;
  u_islower : char -> bool;
  u_istitle : char -> bool;
  u_tolower : char -> char;
  u_upper : char -> str
}.

(** The tables on the Basic Latin block (code points below 128), where they
    are those of the interpreter. Outside of the block this instance
    classifies nothing and maps every code point to itself; it serves the
    worked examples, which are Basic Latin texts. *)
Definition basic_latin : UnicodeDB := {|
  u_alnum c := in_range 48 57 c || in_range 65 90 c || in_range 97 122 c;
  u_decimal c := in_range 48 57 c;
  u_isupper c := in_range 65 90 c;
  u_islower c := in_range 97 122 c;
  u_istitle c := false;
  u_tolower c := if in_range 65 90 c then c + 32 else c;
  u_upper c := if in_range 97 122 c then [c - 32] else [c]
|}.

(** Two databases with the same tables. *)
Definition same_tables (db1 db2 : UnicodeDB) : Prop :=
  ∀ c,
    u_alnum db1 c = u_alnum db2 c ∧ u_decimal db1 c = u_decimal db2 c
    ∧ u_isupper db1 c = u_isupper db2 c ∧ u_islower db1 c = u_islower db2 c
    ∧ u_istitle db1 c = u_istitle db2 c ∧ u_tolower db1 c = u_tolower db2 c
    ∧ u_upper db1 c = u_upper db2 c.

(** A database that is the interpreter's on Basic Latin, as the one of
    every interpreter is. *)
Definition latin_faithful (db : UnicodeDB) : Prop :=
  ∀ c, c < 128 →
    u_alnum db c = u_alnum basic_latin c ∧ u_decimal db c = u_decimal basic_latin c
    ∧ u_isupper db c = u_isupper basic_latin c ∧ u_islower db c = u_islower basic_latin c
    ∧ u_istitle db c = u_istitle basic_latin c ∧ u_tolower db c = u_tolower basic_latin c
    ∧ u_upper db c = u_upper basic_latin c.

(** [db] with its Basic Latin part written out. *)
Definition latin_part (db : UnicodeDB) : UnicodeDB := {|
  u_alnum c := if c <? 128 then u_alnum basic_latin c else u_alnum db c;
  u_decimal c := if c <? 128 then u_decimal basic_latin c else u_decimal db c;
  u_isupper c := if c <? 128 then u_isupper basic_latin c else u_isupper db c;
  u_islower c := if c <? 128 then u_islower basic_latin c else u_islower db c;
  u_istitle c := if c <? 128 then u_istitle basic_latin c else u_istitle db c;
  u_tolower c := if c <? 128 then u_tolower basic_latin c else u_tolower db c;
  u_upper c := if c <? 128 then u_upper basic_latin c else u_upper db c
|}.

Section Program.

Variable db : UnicodeDB.

(** [str.upper()] *)
Definition upper (s : str) : str := mbind (u_upper db) s.

(** [str.isupper()], the loop of the interpreter: no lower-case or
    title-case character, and at least one upper-case character. (The
    interpreter answers one-character strings by a shortcut; the program
    asks only for strings of more than five characters.) *)
Fixpoint isupper_from (cased : bool) (s : str) : bool :=
  match s with
  | [] => cased
  | c :: s' =>
      if u_islower db c || u_istitle db c then false
      else isupper_from (cased || u_isupper db c) s'
  end.

Definition isupper (s : str) : bool := isupper_from false s.

(** ** Regular expressions *)

(** One alternative of a character class. *)
Inductive cset :=
| Chr (c : char)          (* a literal character *)
| Range (lo hi : char)    (* [lo-hi] *)
| Space                   (* \s *)
| Word                    (* \w *)
| Digit.                  (* \d *)

(** A character class; a single literal or escape is a one-element class. *)
Abbreviation atom := (list cset) (only parsing).

Inductive item :=
| One (a : atom)                 (* a *)
| Opt (a : atom)                 (* a? *)
| AtLeast (n : nat) (a : atom)   (* a{n,}, and a+ for n = 1 *)
| Eos.                           (* $ without re.MULTILINE *)

Record pattern := {
  ignorecase : bool;             (* re.IGNORECASE *)
  items : list item
}.

(** The extra case-insensitive equivalents that [re] adds to the simple
    lower-case mapping, for the Basic Latin letters: dotless i for [i] and
    long s for [s]. *)
Definition casefix (lo : char) : list char :=
  if lo =? 105 then [305] else if lo =? 115 then [383] else [].

(** Case-insensitive comparison with a cased literal [c]: the lower-cased
    subject character is looked up among the lower-cased literal and its
    extra equivalents. *)
Definition ci_eq (c ch : char) : bool :=
  let lo := u_tolower db c in
  bool_decide (u_tolower db ch ∈ lo :: casefix lo).

Definition codes (lo hi : char) : list char :=
  (fun i => lo + N.of_nat i) <$> seq 0 (N.to_nat (hi + 1 - lo)).

Definition cset_match (ic : bool) (x : cset) (ch : char) : bool :=
  match x with
  | Chr c => if ic then ci_eq c ch else ch =? c
  | Range lo hi =>
      if ic then existsb (fun c => ci_eq c ch) (codes lo hi)
      else in_range lo hi ch
  | Space => isspace ch
  | Word => u_alnum db ch || (ch =? 95)
  | Digit => u_decimal db ch
  end.

Definition atom_match (ic : bool) (a : atom) (ch : char) : bool :=
  existsb (fun x => cset_match ic x ch) a.

(** The length of the longest prefix of [s] made of characters of [a]. *)
Fixpoint run_length (ic : bool) (a : atom) (s : str) : nat :=
  match s with
  | [] => 0
  | c :: s' => if atom_match ic a c then S (run_length ic a s') else 0
  end.

(** [$]: at the end of the subject, or just before a final line feed. *)
Definition at_end (s : str) : bool :=
  match s with
  | [] => true
  | [c] => c =? 10
  | _ => false
  end.

(** Backtracking for a greedy quantifier: try [k] at [lo + extra], then at
    one less, down to [lo]. *)
Fixpoint backtrack (k : nat -> option nat) (lo extra : nat) : option nat :=
  match k (lo + extra)%nat with
  | Some r => Some (lo + extra + r)%nat
  | None =>
      match extra with
      | O => None
      | S e => backtrack k lo e
      end
  end.

(** [match_here its s]: the length of the match of [its] at the start of
    [s], found as [re] finds it. *)
Fixpoint match_here (ic : bool) (its : list item) (s : str) : option nat :=
  match its with
  | [] => Some O
  | it :: k =>
      match it with
      | Eos => if at_end s then match_here ic k s else None
      | One a =>
          match s with
          | c :: s' =>
              if atom_match ic a c then S <$> match_here ic k s' else None
          | [] => None
          end
      | Opt a =>
          match s with
          | c :: s' =>
              if atom_match ic a c then
                match match_here ic k s' with
                | Some r => Some (S r)
                | None => match_here ic k s
                end
              else match_here ic k s
          | [] => match_here ic k s
          end
      | AtLeast n a =>
          let m := run_length ic a s in
          if (m <? n)%nat then None
          else backtrack (fun j => match_here ic k (drop j s)) n (m - n)
      end
  end.

Definition pmatch (p : pattern) (s : str) : option nat :=
  match_here (ignorecase p) (items p) s.

(** [p.finditer(s)], as the list of the matched texts: scan from the left;
    after a match the scan resumes behind it ([skip] counts the characters
    of the current match still to pass). No pattern of the program matches
    the empty string, and an empty match is passed over. *)
Fixpoint finditer_from (p : pattern) (skip : nat) (s : str) : list str :=
  match s with
  | [] => []
  | _ :: s' =>
      match skip with
      | S n => finditer_from p n s'
      | O =>
          match pmatch p s with
          | Some (S n) => take (S n) s :: finditer_from p n s'
          | _ => finditer_from p O s'
          end
      end
  end.

Definition finditer (p : pattern) (s : str) : list str := finditer_from p O s.

(** [re.sub(p, repl, s)], with the replacement given as a function of the
    matched text. *)
Fixpoint sub_from (p : pattern) (repl : str -> str) (skip : nat) (s : str) : str :=
  match s with
  | [] => []
  | c :: s' =>
      match skip with
      | S n => sub_from p repl n s'
      | O =>
          match pmatch p s with
          | Some (S n) => repl (take (S n) s) ++ sub_from p repl n s'
          | _ => c :: sub_from p repl O s'
          end
      end
  end.

Definition re_sub (p : pattern) (repl : str -> str) (s : str) : str :=
  sub_from p repl O s.

(** ** Title inference *)

(** [r"\s+"] *)
Definition ws_run : pattern :=
  {| ignorecase := false; items := [AtLeast 1 [Space]] |}.

(** [r"[\s\-–—:]+$"]: white space, hyphen, en dash, em dash, colon. *)
Definition junk : atom := [Space; Chr 45; Chr 8211; Chr 8212; Chr 58].

Definition trailing_junk : pattern :=
  {| ignorecase := false; items := [AtLeast 1 junk; Eos] |}.

Definition clean_title (t : str) : str :=
  let t := strip (re_sub ws_run (fun _ => [32]) t) in
  let t := re_sub trailing_junk (fun _ => []) t in
  t.

(** What the PDF library returns for an opened document: the title of its
    metadata, if any, and for each page its plain text ([get_text()]) and
    the blocks, lines and spans of its layout ([get_text("dict")]). A
    block without lines (an image) is an empty list; a text or a size
    that is missing or null is [None]. Font sizes are floats in the
    program, which only compares them: they are rationals here. *)
Record span := {
  span_text : option str;
  span_size : option Q
}.

Record page := {
  page_text : str;
  page_blocks : list (list (list span))
}.

Record document := {
  meta_title : option str;
  pages : list page
}.

(** The branch of the cascade that returned, as its debug message names it. *)
Inductive tier := Metadata | LargestSpan | FirstLine | FileStem.

(** Truth value of a string or list. *)
Definition nonempty {A} (l : list A) : bool :=
  match l with [] => false | _ => true end.

Definition Qgtb (a b : Q) : bool :=
  match (a ?= b)%Q with Gt => true | _ => false end.

(** [txt and len(txt) > 5 and not txt.isupper()] *)
Definition span_txt (sp : span) : str := strip (default [] (span_text sp)).
Definition span_sz (sp : span) : Q := default 0%Q (span_size sp).

Definition qualifies (sp : span) : bool :=
  nonempty (span_txt sp) && (5 <? length (span_txt sp))%nat
  && negb (isupper (span_txt sp)).

(** The body of the innermost loop; [best] is the pair of [best["size"]]
    and [best["text"]]. *)
Definition span_step (best : Q * str) (sp : span) : Q * str :=
  if qualifies sp then
    if Qgtb (span_sz sp) best.1 then (span_sz sp, span_txt sp) else best
  else best.

Definition scan_spans (blocks : list (list (list span))) : Q * str :=
  foldl (fun best block =>
    foldl (fun best line => foldl span_step best line) best block)
    ((-1)%Q, []) blocks.

(** The first line whose trimmed form has more than five characters. *)
Fixpoint first_line (ls : list str) : option str :=
  match ls with
  | [] => None
  | l :: ls' =>
      let L := strip l in
      if nonempty L && (5 <? length L)%nat then Some L else first_line ls'
  end.

Definition meta_usable (m : str) : bool :=
  nonempty m && nonempty (strip m) && (3 <? length (strip m))%nat.

Definition guess_title_tier (doc : document) (stem : str) : tier * str :=
  let meta := default [] (meta_title doc) in
  if meta_usable meta then (Metadata, clean_title meta)
  else
    match pages doc with
    | page0 :: _ =>
        let best := scan_spans (page_blocks page0) in
        if nonempty best.2 then (LargestSpan, clean_title best.2)
        else
          match first_line (splitlines (page_text page0)) with
          | Some L => (FirstLine, clean_title L)
          | None => (FileStem, stem)
          end
    | [] => (FileStem, stem)
    end.

(** [guess_title_from_first_page], on the opened document and the stem of
    its path. *)
Definition guess_title_from_first_page (doc : document) (stem : str) : str :=
  (guess_title_tier doc stem).2.

(** ** Accession extraction *)

Definition lit (s : string) : list item := (fun c => One [Chr c]) <$> text s.
Definition any_of (s : string) : atom := Chr <$> text s.

Definition nocase (its : list item) : pattern :=
  {| ignorecase := true; items := its |}.

(** In each pattern the one group spans the whole pattern, so [m.group(1)]
    is the matched text. *)
Definition COMPILED : list (str * pattern) :=
  [ (text "ENA Project",
      nocase (lit "PRJ" ++ [One (any_of "EDN"); Opt [Range 65 90]; AtLeast 4 [Digit]]));
    (text "GEO Series", nocase (lit "GSE" ++ [AtLeast 4 [Digit]]));
    (text "GEO Sample", nocase (lit "GSM" ++ [AtLeast 4 [Digit]]));
    (text "Biosample",
      nocase (lit "SAM" ++ [One (any_of "END"); Opt [Range 65 90]; AtLeast 4 [Digit]])) ].

(** [r"(\w)-\n(\w)"], and its replacement [r"\1\2"]: of the four characters
    of a match, group 1 is the first and group 2 the last. *)
Definition hyphen_break : pattern :=
  {| ignorecase := false;
     items := [One [Word]; One [Chr 45]; One [Chr 10]; One [Word]] |}.

Definition dehyphen (t : str) : str :=
  re_sub hyphen_break (fun m => take 1 m ++ drop 3 m) t.

(** The body of the innermost loop, on the pair of [found] and [seen]. *)
Definition record_match (acc_type : str)
    (st : list (str * str) * gset (str * str)) (m : str)
    : list (str * str) * gset (str * str) :=
  let acc := upper m in
  let key := (acc_type, acc) in
  if decide (key ∈ st.2) then st
  else (st.1 ++ [(acc_type, acc)], {[ key ]} ∪ st.2).

Definition find_accessions (t : str) : list (str * str) :=
  let text_dehyphen := dehyphen t in
  let targets := [t; text_dehyphen] in
  (foldl (fun st rule =>
     foldl (fun st target =>
       foldl (record_match rule.1) st (finditer rule.2 target))
       st targets)
     ([], ∅) COMPILED).1.

(** ** The batch loop *)

(** An exception: [e.__class__.__name__] and [str(e)]. Only exceptions
    derived from [Exception] are modelled. *)
Record exn := {
  exn_class : str;
  exn_message : str
}.

Inductive result (A : Type) :=
| Ok (a : A)
| Raise (e : exn).
Arguments Ok {A} a.
Arguments Raise {A} e.

(** One file of the input directory and what the collaborators do with it:
    the document [fitz] yields to the title inference, the page texts it
    yields to the text extraction, and the outcome of moving the file to
    [done/]; each of them may raise instead. *)
Record pdf := {
  pdf_name : str;
  pdf_layout : result document;
  pdf_page_texts : result (list str);
  pdf_move : result unit
}.

(** [PurePath.stem]: the name up to its last dot, unless that dot is the
    first or the last character. *)
Fixpoint rfind (c : char) (s : str) : option nat :=
  match s with
  | [] => None
  | x :: s' =>
      match rfind c s' with
      | Some i => Some (S i)
      | None => if x =? c then Some O else None
      end
  end.

Definition stem (name : str) : str :=
  match rfind 46 name with
  | Some i =>
      if (0 <? i)%nat && (i <? length name - 1)%nat then take i name else name
  | None => name
  end.

Definition title_of_pdf (f : pdf) : result str :=
  match pdf_layout f with
  | Ok doc => Ok (guess_title_from_first_page doc (stem (pdf_name f)))
  | Raise e => Raise e
  end.

Definition extract_pdf_text (f : pdf) : result str :=
  match pdf_page_texts f with
  | Ok ps => Ok (join [10] ps)
  | Raise e => Raise e
  end.

Record args := {
  no_jsonl : bool;
  move_done : bool
}.

(** A row of the CSV table and an object of the JSONL file. *)
Record row := {
  row_pdf_file : str;
  row_paper_title : str;
  row_accession_type : str;
  row_accession : str
}.

Record json_record := {
  js_pdf_file : str;
  js_paper_title : str;
  js_accessions : list (str * str);
  js_error : option str
}.

Record state := {
  rows : list row;
  jsonl_records : list json_record;
  total_matches : nat
}.

Definition write_jsonl (a : args) : bool := negb (no_jsonl a).

Definition when {A} (b : bool) (l : list A) : list A := if b then l else [].

(** The body of [try]: the state it leaves, and the exception that ended
    it, if one did. What was appended before the exception stays. *)
Definition try_body (a : args) (f : pdf) (st : state) : state * option exn :=
  match title_of_pdf f with
  | Raise e => (st, Some e)
  | Ok title =>
      match extract_pdf_text f with
      | Raise e => (st, Some e)
      | Ok t =>
          let matches := find_accessions t in
          let st1 :=
            if nonempty matches then
              {| rows := rows st ++
                   ((fun m => {| row_pdf_file := pdf_name f;
                                 row_paper_title := title;
                                 row_accession_type := m.1;
                                 row_accession := m.2 |}) <$> matches);
                 jsonl_records := jsonl_records st ++
                   when (write_jsonl a)
                     [{| js_pdf_file := pdf_name f;
                         js_paper_title := title;
                         js_accessions := matches;
                         js_error := None |}];
                 total_matches := total_matches st + length matches |}
            else
              {| rows := rows st ++
                   [{| row_pdf_file := pdf_name f;
                       row_paper_title := title;
                       row_accession_type := [];
                       row_accession := [] |}];
                 jsonl_records := jsonl_records st ++
                   when (write_jsonl a)
                     [{| js_pdf_file := pdf_name f;
                         js_paper_title := title;
                         js_accessions := [];
                         js_error := None |}];
                 total_matches := total_matches st |} in
          if move_done a then
            match pdf_move f with
            | Ok _ => (st1, None)
            | Raise e => (st1, Some e)
            end
          else (st1, None)
      end
  end.

Definition error_title (e : exn) : str := text "ERROR: " ++ exn_class e.

(** The row and the object that the [except Exception as e] clause
    appends. *)
Definition error_row (f : pdf) (e : exn) : row :=
  {| row_pdf_file := pdf_name f;
     row_paper_title := error_title e;
     row_accession_type := [];
     row_accession := [] |}.

Definition error_record (f : pdf) (e : exn) : json_record :=
  {| js_pdf_file := pdf_name f;
     js_paper_title := error_title e;
     js_accessions := [];
     js_error := Some (exn_message e) |}.

Definition handler (a : args) (f : pdf) (e : exn) (st : state) : state :=
  {| rows := rows st ++ [error_row f e];
     jsonl_records := jsonl_records st ++ when (write_jsonl a) [error_record f e];
     total_matches := total_matches st |}.

(** One turn of the loop over [pdf_files]. *)
Definition process (a : args) (st : state) (f : pdf) : state :=
  match try_body a f st with
  | (st', None) => st'
  | (st', Some e) => handler a f e st'
  end.

Definition initial : state :=
  {| rows := []; jsonl_records := []; total_matches := 0 |}.

(** [main], from the sorted list of the PDF files of the input directory to
    what is handed to the writers; [None] is the early return when there is
    no file. *)
Definition main (a : args) (pdf_files : list pdf) : option state :=
  if nonempty pdf_files then Some (foldl (process a) initial pdf_files)
  else None.

(** ** Definitions used to state the properties *)

(** The characters of the class of [trailing_junk]. *)
Definition is_junk (c : char) : bool :=
  isspace c || (c =? 45) || (c =? 8211) || (c =? 8212) || (c =? 58).

(** The characters of [\w]. *)
Definition is_word (c : char) : bool := u_alnum db c || (c =? 95).

(** [s] without its longest suffix of junk characters. *)
Fixpoint chop_junk (s : str) : str :=
  match s with
  | [] => []
  | c :: s' => if forallb is_junk s then [] else c :: chop_junk s'
  end.

(** Every white space character of [s] is a space, and no two of them are
    neighbours. *)
Fixpoint tidy (s : str) : bool :=
  match s with
  | [] => true
  | c :: s' =>
      (if isspace c
       then (c =? 32) && match s' with c' :: _ => negb (isspace c') | [] => true end
       else true)
      && tidy s'
  end.

(** [s] starts with a word character, a hyphen, a line feed and a word
    character. *)
Definition occurs_here (s : str) : bool :=
  match s with
  | c1 :: h :: n :: c2 :: _ => is_word c1 && (h =? 45) && (n =? 10) && is_word c2
  | _ => false
  end.

(** The text contains a hyphen directly followed by a line feed. *)
Fixpoint has_hyphen_break (s : str) : bool :=
  match s with
  | [] => false
  | c :: s' =>
      ((c =? 45) && match s' with n :: _ => n =? 10 | [] => false end)
      || has_hyphen_break s'
  end.

(** [t'] is [t] with some hyphen and line feed pairs deleted, and nothing
    else changed. *)
Inductive drops_breaks : str -> str -> Prop :=
| db_nil : drops_breaks [] []
| db_keep c t t' : drops_breaks t t' -> drops_breaks (c :: t) (c :: t')
| db_drop t t' : drops_breaks t t' -> drops_breaks (45 :: 10 :: t) t'.

(** The normalization in the words of the specification: every hyphen and
    line feed that stand between two word characters are deleted. [prev]
    is the character before [s] in the text, and [skip] tells that [s]
    starts with the line feed of a deleted pair. *)
Fixpoint collapse_every_from (prev : option char) (skip : bool) (s : str) : str :=
  match s with
  | [] => []
  | c :: s' =>
      if skip then collapse_every_from (Some c) false s'
      else if (c =? 45)
              && from_option is_word false prev
              && match s' with
                 | n :: c2 :: _ => (n =? 10) && is_word c2
                 | _ => false
                 end
      then collapse_every_from (Some c) true s'
      else c :: collapse_every_from (Some c) false s'
  end.

Definition collapse_every (t : str) : str := collapse_every_from None false t.

(** Every (label, identifier) pair the rules find, rule by rule, for each
    rule first in the text and then in its normalized form. *)
Definition candidates (t : str) : list (str * str) :=
  rule ← COMPILED;
  (fun m => (rule.1, upper m)) <$> (finditer rule.2 t ++ finditer rule.2 (dehyphen t)).

(** The spans of a page in block, line, span order. *)
Definition spans_of (blocks : list (list (list span))) : list span :=
  concat (concat blocks).

(** The text the cascade accepts before it is cleaned: the candidate of
    the first tier whose test passes; none when the cascade ends at the
    file name. *)
Definition raw_candidate (doc : document) : option str :=
  let meta := default [] (meta_title doc) in
  if meta_usable meta then Some meta
  else
    match pages doc with
    | page0 :: _ =>
        let best := scan_spans (page_blocks page0) in
        if nonempty best.2 then Some best.2
        else first_line (splitlines (page_text page0))
    | [] => None
    end.

(** [st] with what [inc] holds appended. *)
Definition extend (st inc : state) : state :=
  {| rows := rows st ++ rows inc;
     jsonl_records := jsonl_records st ++ jsonl_records inc;
     total_matches := total_matches st + total_matches inc |}.

(** The exception with which the [try] body ends for [f], if it does. *)
Definition raised (a : args) (f : pdf) : option exn := (try_body a f initial).2.

(** The loop started on an empty state. *)
Definition run (a : args) (fs : list pdf) : state := foldl (process a) initial fs.

End Program.

Arguments Ok {A} a.
Arguments Raise {A} e.

(** [s] is empty or starts (ends) with a character outside of [P]. *)
Definition starts_clean (P : char -> bool) (s : str) : Prop :=
  match s with c :: _ => P c = false | [] => True end.

Definition ends_clean (P : char -> bool) (s : str) : Prop :=
  starts_clean P (reverse s).

(** The list without the repetitions of its elements: an element stays
    where it comes first. [seen] holds the elements already passed. *)
Fixpoint keep_first `{Countable A} (seen : gset A) (l : list A) : list A :=
  match l with
  | [] => []
  | x :: l' =>
      if decide (x ∈ seen) then keep_first seen l'
      else x :: keep_first ({[ x ]} ∪ seen) l'
  end.

(** ** Further parts of the program *)

(** The levels of [logging] the program sets, and their numbers. *)
Inductive level := WARNING | INFO | DEBUG.

Definition level_number (l : level) : Z :=
  match l with WARNING => 30 | INFO => 20 | DEBUG => 10 end%Z.

Inductive log_handler :=
| StreamHandler
| FileHandler (path : str).

(** [setup_logger]: the level and the handlers it gives to
    [logging.basicConfig]. A log file that is [None] or the empty string
    adds no handler. *)
Definition setup_logger (verbosity : Z) (log_file : option str)
    : level * list log_handler :=
  let level :=
    if (verbosity =? 1)%Z then INFO
    else if (2 <=? verbosity)%Z then DEBUG
    else WARNING in
  let handlers :=
    [StreamHandler]
    ++ match log_file with
       | Some path => if nonempty path then [FileHandler path] else []
       | None => []
       end in
  (level, handlers).

(** [args.verbose] after [flags] occurrences of [-v]: the [count] action
    adds one for each to the default, which is 1. *)
Definition verbose (flags : nat) : Z := 1 + Z.of_nat flags.

(** [PurePath.suffix]: the name from its last dot on, unless that dot is
    the first or the last character. *)
Definition suffix (name : str) : str :=
  match rfind 46 name with
  | Some i =>
      if (0 <? i)%nat && (i <? length name - 1)%nat then drop i name else []
  | None => []
  end.

(** [a < b] on strings: by code points, a proper prefix first. *)
Fixpoint str_lt (a b : str) : bool :=
  match a, b with
  | _, [] => false
  | [], _ :: _ => true
  | x :: a', y :: b' =>
      if x <? y then true else if y <? x then false else str_lt a' b'
  end.

(** An entry of the input directory: whether it is a regular file, and the
    file with what the collaborators do with it. *)
Record entry := {
  entry_is_file : bool;
  entry_pdf : pdf
}.

(** [p.is_file() and p.suffix.lower() == ".pdf"]; [lower] is [str.lower]. *)
Definition is_pdf (lower : str -> str) (e : entry) : bool :=
  entry_is_file e
  && bool_decide (lower (suffix (pdf_name (entry_pdf e))) = text ".pdf").

(** The order [sorted] puts the paths of one directory in: that of their
    names, as POSIX paths compare. *)
Definition name_le (f g : pdf) : Prop := str_lt (pdf_name g) (pdf_name f) = false.

#[global] Instance name_le_dec (f g : pdf) : Decision (name_le f g) :=
  decide (str_lt (pdf_name g) (pdf_name f) = false).

(** [pdf_files]: the entries that pass the test, sorted. *)
Definition pdf_files (lower : str -> str) (entries : list entry) : list pdf :=
  merge_sort name_le (entry_pdf <$> List.filter (is_pdf lower) entries).

(** The least number of characters a match of the items has. *)
Fixpoint min_length (its : list item) : nat :=
  match its with
  | [] => 0
  | One _ :: k => S (min_length k)
  | Opt _ :: k => min_length k
  | AtLeast n _ :: k => n + min_length k
  | Eos :: k => min_length k
  end.

(** The rows the loop appends along with a JSONL object. *)
Definition rows_of_record (r : json_record) : list row :=
  match js_accessions r with
  | [] =>
      [{| row_pdf_file := js_pdf_file r; row_paper_title := js_paper_title r;
          row_accession_type := []; row_accession := [] |}]
  | ms =>
      (fun m => {| row_pdf_file := js_pdf_file r;
                   row_paper_title := js_paper_title r;
                   row_accession_type := m.1; row_accession := m.2 |}) <$> ms
  end.

(** The row reports an accession. *)
Definition carries_accession (r : row) : bool := nonempty (row_accession_type r).

(** The arguments with the JSONL output switched on. *)
Definition with_jsonl (a : args) : args :=
  {| no_jsonl := false; move_done := move_done a |}.

(** The arguments with the JSONL output switched off. *)
Definition without_jsonl (a : args) : args :=
  {| no_jsonl := true; move_done := move_done a |}.

(** The file is read without failure and its move to [done/], which is
    asked for, fails. *)
Definition move_fails (a : args) (f : pdf) : bool :=
  move_done a
  && match pdf_layout f, pdf_page_texts f, pdf_move f with
     | Ok _, Ok _, Raise _ => true
     | _, _, _ => false
     end.

(** [str.lower] on Basic Latin text. *)
Definition latin_lower (s : str) : str :=
  (fun c => if in_range 65 90 c then c + 32 else c) <$> s.

(** The items ask for a decimal digit: one of them is [\d{n,}] with a
    positive [n]. *)
Fixpoint needs_digit (its : list item) : bool :=
  match its with
  | [] => false
  | AtLeast (S _) [Digit] :: _ => true
  | _ :: k => needs_digit k
  end.

(** The exception that ends the processing of [f], if one does: that of the
    first step that raises, of the title inference, the text extraction,
    and with [--move-done] the move of the file. *)
Definition first_failure (a : args) (f : pdf) : option exn :=
  match pdf_layout f, pdf_page_texts f with
  | Raise e, _ => Some e
  | Ok _, Raise e => Some e
  | Ok _, Ok _ =>
      if move_done a
      then match pdf_move f with Raise e => Some e | Ok _ => None end
      else None
  end.

(** ** Worked inputs *)

Definition span_of (t : str) (size : Q) : span :=
  {| span_text := Some t; span_size := Some size |}.

(** A document without metadata title whose first page has one line of
    three spans of the sizes 10, 24 and 12, the last of which reads
    "A Study of Regulatory Elements". *)
Definition three_spans (t10 t24 : str) : document :=
  {| meta_title := None;
     pages :=
       [ {| page_text := [];
            page_blocks :=
              [[[ span_of t10 10; span_of t24 24;
                  span_of (text "A Study of Regulatory Elements") 12 ]]] |} ] |}.

(** A first page whose largest span is a number. *)
Definition numbered_page : page :=
  {| page_text := text "2019-03571";
     page_blocks :=
       [[[ span_of (text "2019-03571") 30 ];
         [ span_of (text "Regulatory elements in yeast") 18 ]]] |}.

Definition numbered : document :=
  {| meta_title := Some (text "x"); pages := [numbered_page] |}.

(** A document whose metadata title is four colons. *)
Definition colons : document :=
  {| meta_title := Some (text "::::"); pages := [] |}.

(** A readable file without accessions whose move to [done/] fails. *)
Definition stuck : pdf :=
  {| pdf_name := text "a.pdf";
     pdf_layout := Ok {| meta_title := None; pages := [] |};
     pdf_page_texts := Ok [];
     pdf_move :=
       Raise {| exn_class := text "PermissionError";
                exn_message := text "denied" |} |}.

(** A file that cannot be opened. *)
Definition broken : pdf :=
  {| pdf_name := text "b.pdf";
     pdf_layout :=
       Raise {| exn_class := text "FileDataError";
                exn_message := text "cannot open broken document" |};
     pdf_page_texts :=
       Raise {| exn_class := text "FileDataError";
                exn_message := text "cannot open broken document" |};
     pdf_move := Ok tt |}.

(** A readable file with one accession. *)
Definition good (name : string) : pdf :=
  {| pdf_name := text name;
     pdf_layout := Ok {| meta_title := Some (text "Yeast genomes"); pages := [] |};
     pdf_page_texts := Ok [text "Data are available as GSE1234."];
     pdf_move := Ok tt |}.

(** The entries of a directory, as it may list them. *)
Definition listing : list entry :=
  [ {| entry_is_file := true; entry_pdf := good "b.PDF" |};
    {| entry_is_file := true; entry_pdf := good "notes.txt" |};
    {| entry_is_file := false; entry_pdf := good "old.pdf" |};
    {| entry_is_file := true; entry_pdf := good "a.pdf" |} ].


(** * Properties *)

(** ** Independence of the tables *)

(** The program reads a database through its tables only. *)
Section Tables.

Variables db1 db2 : UnicodeDB.
Hypothesis Hsame : same_tables db1 db2.

Lemma foldl_same {A B} (f g : A → B → A) (l : list B) (a : A) :
  (∀ a b, f a b = g a b) → foldl f a l = foldl g a l.
Proof.
  intros Hfg. revert a. induction l as [|b l IH]; intros a; [done|].
  simpl. by rewrite Hfg, IH.
Qed.

Lemma existsb_same {A} (f g : A → bool) (l : list A) :
  (∀ a, f a = g a) → existsb f l = existsb g l.
Proof. intros Hfg. induction l as [|a l IH]; [done|]. simpl. by rewrite Hfg, IH. Qed.

Lemma upper_same s : upper db1 s = upper db2 s.
Proof.
  unfold upper. apply list_bind_ext; [|done]. intros c. apply Hsame.
Qed.

Lemma isupper_same s : isupper db1 s = isupper db2 s.
Proof.
  unfold isupper. generalize false as cased.
  induction s as [|c s IH]; intros cased; [done|]. simpl.
  destruct (Hsame c) as (_ & _ & -> & -> & -> & _). by rewrite IH.
Qed.

Lemma ci_eq_same c ch : ci_eq db1 c ch = ci_eq db2 c ch.
Proof.
  unfold ci_eq. destruct (Hsame c) as (_ & _ & _ & _ & _ & -> & _).
  by destruct (Hsame ch) as (_ & _ & _ & _ & _ & -> & _).
Qed.

Lemma atom_match_same ic a ch : atom_match db1 ic a ch = atom_match db2 ic a ch.
Proof.
  unfold atom_match. apply existsb_same. intros x.
  destruct (Hsame ch) as (Ha & Hd & _).
  destruct x, ic; simpl; rewrite ?Ha, ?Hd, ?ci_eq_same; try done.
  apply existsb_same. intros c. apply ci_eq_same.
Qed.

Lemma run_length_same ic a s : run_length db1 ic a s = run_length db2 ic a s.
Proof.
  induction s as [|c s IH]; [done|]. simpl. by rewrite atom_match_same, IH.
Qed.

Lemma backtrack_same (k1 k2 : nat → option nat) lo e :
  (∀ j, k1 j = k2 j) → backtrack k1 lo e = backtrack k2 lo e.
Proof. intros Hk. induction e as [|e IH]; simpl; rewrite Hk; [done|by rewrite IH]. Qed.

Lemma match_here_same ic its s : match_here db1 ic its s = match_here db2 ic its s.
Proof.
  revert s. induction its as [|it k IH]; intros s; [done|].
  destruct it as [a|a|n a|]; cbn [match_here].
  - destruct s as [|c s]; [done|]. by rewrite atom_match_same, IH.
  - destruct s as [|c s]; [apply IH|]. by rewrite atom_match_same, !IH.
  - rewrite run_length_same. destruct (_ <? _)%nat; [done|].
    apply backtrack_same. intros j. apply IH.
  - by rewrite IH.
Qed.

Lemma finditer_same p s : finditer db1 p s = finditer db2 p s.
Proof.
  unfold finditer. generalize O as skip.
  induction s as [|c s IH]; intros skip; [done|]. simpl.
  unfold pmatch. rewrite match_here_same. destruct skip; [|apply IH].
  by destruct (match_here db2 _ _ _) as [[|n]|]; rewrite IH.
Qed.

Lemma re_sub_same p repl s : re_sub db1 p repl s = re_sub db2 p repl s.
Proof.
  unfold re_sub. generalize O as skip.
  induction s as [|c s IH]; intros skip; [done|]. simpl.
  unfold pmatch. rewrite match_here_same. destruct skip; [|apply IH].
  by destruct (match_here db2 _ _ _) as [[|n]|]; rewrite IH.
Qed.

Lemma dehyphen_same t : dehyphen db1 t = dehyphen db2 t.
Proof. unfold dehyphen. apply re_sub_same. Qed.

Lemma collapse_every_same t : collapse_every db1 t = collapse_every db2 t.
Proof.
  unfold collapse_every. generalize (None : option N) as prev, false as skip.
  induction t as [|c t IH]; intros prev skip; [done|]. simpl.
  assert (∀ x, is_word db1 x = is_word db2 x) as Hw.
  { intros x. unfold is_word. by destruct (Hsame x) as (-> & _). }
  rewrite !IH.
  assert (from_option (is_word db1) false prev = from_option (is_word db2) false prev)
    as -> by (destruct prev; [apply Hw|done]).
  destruct t as [|n [|c2 t']]; [reflexivity|reflexivity|].
  rewrite (Hw c2). reflexivity.
Qed.

Lemma clean_title_same t : clean_title db1 t = clean_title db2 t.
Proof. unfold clean_title. by rewrite !re_sub_same. Qed.

Lemma qualifies_same sp : qualifies db1 sp = qualifies db2 sp.
Proof. unfold qualifies. by rewrite isupper_same. Qed.

Lemma span_step_same best sp : span_step db1 best sp = span_step db2 best sp.
Proof. unfold span_step. by rewrite qualifies_same. Qed.

Lemma guess_title_same doc name :
  guess_title_tier db1 doc name = guess_title_tier db2 doc name.
Proof.
  unfold guess_title_tier, scan_spans. rewrite !clean_title_same.
  destruct (meta_usable _); [done|]. destruct (pages doc) as [|page0 ?]; [done|].
  rewrite (foldl_same _
    (fun best block =>
       foldl (fun best line => foldl (span_step db2) best line) best block)).
  - rewrite !clean_title_same. destruct (first_line _); [|done].
    by rewrite clean_title_same.
  - intros best block. apply foldl_same. intros best' line.
    apply foldl_same, span_step_same.
Qed.

Lemma find_accessions_same t : find_accessions db1 t = find_accessions db2 t.
Proof.
  unfold find_accessions. rewrite dehyphen_same. apply (f_equal fst).
  apply foldl_same. intros st rule. apply foldl_same. intros st' target.
  rewrite finditer_same. apply foldl_same. intros st'' m.
  unfold record_match. by rewrite upper_same.
Qed.

Lemma main_same a fs : main db1 a fs = main db2 a fs.
Proof.
  unfold main.
  rewrite (foldl_same (process db1 a) (process db2 a)); [reflexivity|].
  intros st f. unfold process, try_body, title_of_pdf, guess_title_from_first_page.
  destruct (pdf_layout f) as [doc|e]; [|reflexivity]. rewrite guess_title_same.
  destruct (extract_pdf_text f) as [t|e]; [|reflexivity].
  rewrite find_accessions_same. reflexivity.
Qed.

End Tables.

Lemma latin_part_same db : latin_faithful db → same_tables db (latin_part db).
Proof.
  intros Hdb c. unfold latin_part. simpl.
  destruct (c <? 128) eqn:Hc; [|done]. apply N.ltb_lt in Hc. apply (Hdb c Hc).
Qed.

Lemma basic_latin_faithful : latin_faithful basic_latin.
Proof. by intros c _. Qed.

(** ** Trimming *)

Section Trimming.

Lemma lstrip_split s : ∃ w, s = w ++ lstrip s ∧ forallb isspace w = true.
Proof.
  induction s as [|c s [w [Hs Hw]]]; simpl.
  - by exists [].
  - destruct (isspace c) eqn:Hc.
    + exists (c :: w). simpl. rewrite Hc, Hw. split; [by f_equal|done].
    + by exists [].
Qed.

Lemma lstrip_starts_clean s : starts_clean isspace (lstrip s).
Proof.
  induction s as [|c s IH]; simpl; [done|].
  destruct (isspace c) eqn:Hc; [done|]. exact Hc.
Qed.

Lemma lstrip_clean s : starts_clean isspace s → lstrip s = s.
Proof. destruct s as [|c s]; simpl; [done|]. by intros ->. Qed.

Lemma rstrip_split s : ∃ w, s = rstrip s ++ w ∧ forallb isspace w = true.
Proof.
  unfold rstrip. destruct (lstrip_split (reverse s)) as [w [Hs Hw]].
  exists (reverse w). split.
  - rewrite <- reverse_app, <- Hs. by rewrite reverse_involutive.
  - rewrite forallb_forall in *. intros x Hx. apply Hw.
    rewrite <- list_elem_of_In in *. by apply elem_of_reverse.
Qed.

Lemma rstrip_ends_clean s : ends_clean isspace (rstrip s).
Proof.
  unfold ends_clean, rstrip. rewrite reverse_involutive.
  apply lstrip_starts_clean.
Qed.

Lemma rstrip_clean s : ends_clean isspace s → rstrip s = s.
Proof.
  unfold ends_clean, rstrip. intros H. rewrite lstrip_clean by done.
  apply reverse_involutive.
Qed.

Lemma starts_clean_prefix P s w :
  starts_clean P (s ++ w) → starts_clean P s.
Proof. by destruct s. Qed.

Lemma rstrip_starts_clean s : starts_clean isspace s → starts_clean isspace (rstrip s).
Proof.
  intros H. destruct (rstrip_split s) as [w [Hs _]].
  rewrite Hs in H. by eapply starts_clean_prefix.
Qed.

Lemma strip_starts_clean s : starts_clean isspace (strip s).
Proof. apply rstrip_starts_clean, lstrip_starts_clean. Qed.

Lemma strip_ends_clean s : ends_clean isspace (strip s).
Proof. apply rstrip_ends_clean. Qed.

Lemma strip_clean s :
  starts_clean isspace s → ends_clean isspace s → strip s = s.
Proof.
  intros H1 H2. unfold strip. rewrite lstrip_clean by done. by apply rstrip_clean.
Qed.

(** [strip] cuts white space off both ends and nothing else. *)
Lemma strip_split s :
  ∃ w1 w2, s = w1 ++ strip s ++ w2
           ∧ forallb isspace w1 = true ∧ forallb isspace w2 = true.
Proof.
  destruct (lstrip_split s) as [w1 [H1 Hw1]].
  destruct (rstrip_split (lstrip s)) as [w2 [H2 Hw2]].
  exists w1, w2. unfold strip. by rewrite <- H2.
Qed.

End Trimming.

(** ** The matcher on the patterns of the title cleaning *)

Section Cleaning.

Variable db : UnicodeDB.

Lemma sub_from_skip p repl n s :
  sub_from db p repl n s = re_sub db p repl (drop n s).
Proof.
  unfold re_sub. revert n.
  induction s as [|c s IH]; intros [|n]; simpl; done.
Qed.

Lemma re_sub_cons p repl c s :
  re_sub db p repl (c :: s) =
    match pmatch db p (c :: s) with
    | Some (S n) => repl (take (S n) (c :: s)) ++ re_sub db p repl (drop n s)
    | _ => c :: re_sub db p repl s
    end.
Proof.
  unfold re_sub at 1. simpl. destruct (pmatch db p (c :: s)) as [[|n]|]; try done.
  by rewrite sub_from_skip.
Qed.

Lemma backtrack_none k lo e :
  (∀ j, (lo ≤ j ≤ lo + e)%nat → k j = None) → backtrack k lo e = None.
Proof.
  induction e as [|e IH]; intros Hk; simpl.
  - by rewrite Hk by lia.
  - rewrite Hk by lia. apply IH. intros j Hj. apply Hk. lia.
Qed.

Lemma backtrack_first k lo e r :
  k (lo + e)%nat = Some r → backtrack k lo e = Some (lo + e + r)%nat.
Proof. intros Hk. destruct e; simpl; by rewrite Hk. Qed.

Lemma backtrack_ge k lo e r : backtrack k lo e = Some r → (lo ≤ r)%nat.
Proof.
  induction e as [|e IH]; simpl; destruct (k _); try done;
    intros [= <-]; lia.
Qed.

(** A pattern that starts with a character, or with one or more of a
    class, has no empty match: so it is with every pattern of the program. *)
Lemma match_here_positive ic its s n :
  match its with
  | One _ :: _ | AtLeast (S _) _ :: _ => True
  | _ => False
  end →
  match_here db ic its s = Some n → (0 < n)%nat.
Proof.
  destruct its as [|[a|a|[|m] a|] k]; try done; intros _; cbn [match_here].
  - destruct s as [|c s]; [done|]. destruct (atom_match db ic a c); [|done].
    destruct (match_here db ic k s); [|done]. intros [= <-]. lia.
  - destruct (_ <? _)%nat; [done|]. intros Hb. apply backtrack_ge in Hb. lia.
Qed.

Lemma atom_space c : atom_match db false [Space] c = isspace c.
Proof. simpl. apply orb_false_r. Qed.

Lemma atom_junk c : atom_match db false junk c = is_junk c.
Proof.
  unfold is_junk. simpl.
  destruct (isspace c), (c =? 45), (c =? 8211), (c =? 8212), (c =? 58); done.
Qed.

Lemma isspace_is_junk c : isspace c = true → is_junk c = true.
Proof. unfold is_junk. by intros ->. Qed.

Lemma run_space_drop s : drop (run_length db false [Space] s) s = lstrip s.
Proof.
  induction s as [|c s IH]; [done|].
  cbn [run_length lstrip]. rewrite atom_space.
  destruct (isspace c); [apply IH|done].
Qed.

Lemma pmatch_ws_run s :
  pmatch db ws_run s =
    match run_length db false [Space] s with
    | O => None
    | S n => Some (S n)
    end.
Proof.
  unfold pmatch, ws_run. cbn [ignorecase items match_here].
  destruct (run_length db false [Space] s) as [|n]; [done|].
  cbn [Nat.ltb Nat.leb]. rewrite (backtrack_first _ _ _ O); [f_equal; lia|done].
Qed.

Lemma collapse_space f c s :
  isspace c = true →
  re_sub db ws_run f (c :: s) =
    f (take (S (run_length db false [Space] s)) (c :: s))
      ++ re_sub db ws_run f (lstrip s).
Proof.
  intros Hc. rewrite re_sub_cons, pmatch_ws_run.
  cbn [run_length]. rewrite atom_space, Hc. by rewrite run_space_drop.
Qed.

Lemma collapse_other f c s :
  isspace c = false → re_sub db ws_run f (c :: s) = c :: re_sub db ws_run f s.
Proof.
  intros Hc. rewrite re_sub_cons, pmatch_ws_run.
  cbn [run_length]. by rewrite atom_space, Hc.
Qed.

Lemma lstrip_length s : (length (lstrip s) ≤ length s)%nat.
Proof.
  destruct (lstrip_split s) as [w [Hs _]]. rewrite Hs at 2.
  rewrite length_app. lia.
Qed.

Lemma collapse_starts_clean f s :
  starts_clean isspace s → starts_clean isspace (re_sub db ws_run f s).
Proof.
  destruct s as [|c s]; [done|]. simpl. intros Hc.
  by rewrite collapse_other.
Qed.

Lemma collapse_tidy_bounded n s :
  (length s ≤ n)%nat → tidy (re_sub db ws_run (fun _ => [32]) s) = true.
Proof.
  revert s. induction n as [|n IH]; intros [|c s] Hn; simpl in Hn; try done; try lia.
  destruct (isspace c) eqn:Hc.
  - rewrite collapse_space by done. simpl.
    pose proof (lstrip_length s).
    rewrite IH by lia. rewrite andb_true_r.
    pose proof (collapse_starts_clean (fun _ => [32]) _ (lstrip_starts_clean s)) as Hs.
    destruct (re_sub db ws_run _ (lstrip s)); [done|]. simpl in Hs. by rewrite Hs.
  - rewrite collapse_other by done. simpl. rewrite Hc. apply IH. lia.
Qed.

Lemma collapse_tidy s : tidy (re_sub db ws_run (fun _ => [32]) s) = true.
Proof. by apply (collapse_tidy_bounded (length s)). Qed.

Lemma tidy_collapse s : tidy s = true → re_sub db ws_run (fun _ => [32]) s = s.
Proof.
  induction s as [|c s IH]; [done|]. simpl. intros H.
  apply andb_prop in H as [H1 H2]. destruct (isspace c) eqn:Hc.
  - apply andb_prop in H1 as [H1 H3]. apply N.eqb_eq in H1 as ->.
    rewrite collapse_space by done. rewrite lstrip_clean.
    + by rewrite IH.
    + destruct s; [done|]. simpl. by apply negb_true_iff.
  - rewrite collapse_other by done. by rewrite IH.
Qed.

Lemma tidy_app_r s1 s2 : tidy (s1 ++ s2) = true → tidy s2 = true.
Proof.
  induction s1 as [|c s1 IH]; [done|]. simpl. intros H.
  apply andb_prop in H as [_ H]. by apply IH.
Qed.

Lemma tidy_app_l s1 s2 : tidy (s1 ++ s2) = true → tidy s1 = true.
Proof.
  induction s1 as [|c s1 IH]; [done|]. simpl. intros H.
  apply andb_prop in H as [H1 H2]. rewrite IH by done. rewrite andb_true_r.
  destruct (isspace c); [|done]. destruct s1; [|done].
  apply andb_prop in H1 as [-> _]. done.
Qed.

Lemma run_junk_all s :
  forallb is_junk s = true → run_length db false junk s = length s.
Proof.
  induction s as [|c s IH]; [done|]. cbn [forallb run_length length].
  intros H. apply andb_prop in H as [Hc Hs]. rewrite atom_junk, Hc. by rewrite IH.
Qed.

Lemma run_junk_stop s :
  forallb is_junk s = false →
  ∃ pre c post, s = pre ++ c :: post
                ∧ run_length db false junk s = length pre ∧ is_junk c = false.
Proof.
  induction s as [|c s IH]; [done|]. cbn [forallb run_length].
  rewrite atom_junk. destruct (is_junk c) eqn:Hc; simpl.
  - intros H. destruct (IH H) as (pre & x & post & -> & Hr & Hx).
    exists (c :: pre), x, post. simpl. by rewrite Hr.
  - intros _. by exists [], c, s.
Qed.

Lemma pmatch_trailing_junk s :
  pmatch db trailing_junk s =
    if nonempty s && forallb is_junk s then Some (length s) else None.
Proof.
  unfold pmatch, trailing_junk. cbn [ignorecase items match_here].
  destruct (forallb is_junk s) eqn:Hall.
  - rewrite run_junk_all by done. destruct s as [|c s]; [done|].
    cbn [length Nat.ltb Nat.leb nonempty andb].
    rewrite (backtrack_first _ _ _ O).
    + f_equal. lia.
    + replace (1 + (S (length s) - 1))%nat with (length (c :: s)) by (simpl; lia).
      by rewrite drop_all.
  - rewrite andb_false_r.
    destruct (run_junk_stop s Hall) as (pre & c & post & -> & -> & Hc).
    destruct (length pre <? 1)%nat eqn:Hlen; [done|].
    apply backtrack_none. intros j Hj.
    apply Nat.ltb_ge in Hlen.
    rewrite drop_app_le by lia.
    destruct (drop j pre) as [|x r] eqn:Hd.
    + simpl. destruct post; [|done].
      destruct (c =? 10) eqn:Hnl; [|done].
      apply N.eqb_eq in Hnl. subst c. done.
    + simpl. by destruct r.
Qed.

(** The second substitution of [clean_title] cuts the junk off the end. *)
Lemma trailing_junk_chop s :
  re_sub db trailing_junk (fun _ => []) s = chop_junk s.
Proof.
  induction s as [|c s IH]; [done|].
  rewrite re_sub_cons, pmatch_trailing_junk. cbn [nonempty andb chop_junk].
  destruct (forallb is_junk (c :: s)).
  - cbn [length app]. by rewrite drop_all.
  - by rewrite IH.
Qed.

Lemma clean_title_eq t :
  clean_title db t = chop_junk (strip (re_sub db ws_run (fun _ => [32]) t)).
Proof. unfold clean_title. apply trailing_junk_chop. Qed.

Lemma chop_junk_split s :
  ∃ w, s = chop_junk s ++ w ∧ forallb is_junk w = true.
Proof.
  induction s as [|c s (w & Hs & Hw)]; [by exists []|].
  cbn [chop_junk]. destruct (forallb is_junk (c :: s)) eqn:Hall.
  - by exists (c :: s).
  - exists w. split; [|done]. simpl. by f_equal.
Qed.

Lemma ends_clean_snoc P s c : P c = false → ends_clean P (s ++ [c]).
Proof. intros H. unfold ends_clean. by rewrite reverse_snoc. Qed.

Lemma ends_clean_inv P s :
  ends_clean P s → s = [] ∨ ∃ pre c, s = pre ++ [c] ∧ P c = false.
Proof.
  unfold ends_clean. intros H.
  destruct (reverse s) as [|c r] eqn:Hr.
  - left. by apply (inj reverse).
  - right. exists (reverse r), c. split; [|done].
    rewrite <- (reverse_involutive s), Hr. by rewrite reverse_cons.
Qed.

Lemma chop_junk_nil s : forallb is_junk s = true → chop_junk s = [].
Proof. destruct s; [done|]. cbn [chop_junk]. by intros ->. Qed.

Lemma chop_junk_snoc s c : is_junk c = false → chop_junk (s ++ [c]) = s ++ [c].
Proof.
  intros Hc. induction s as [|x s IH].
  - simpl. by rewrite Hc.
  - cbn [app chop_junk]. rewrite IH.
    replace (forallb is_junk (x :: s ++ [c])) with false; [done|].
    symmetry. cbn [forallb]. rewrite forallb_app. simpl. rewrite Hc.
    by rewrite andb_false_r, andb_false_r.
Qed.

Lemma chop_junk_clean s : ends_clean is_junk s → chop_junk s = s.
Proof.
  intros H. apply ends_clean_inv in H as [->|(pre & c & -> & Hc)]; [done|].
  by apply chop_junk_snoc.
Qed.

Lemma chop_junk_ends_clean s : ends_clean is_junk (chop_junk s).
Proof.
  induction s as [|c s IH]; [done|]. cbn [chop_junk].
  destruct (forallb is_junk (c :: s)) eqn:Hall; [done|].
  destruct (ends_clean_inv _ _ IH) as [Hnil|(pre & x & Hs & Hx)].
  - rewrite Hnil. apply (ends_clean_snoc _ []).
    cbn [forallb] in Hall. apply andb_false_iff in Hall as [Hc|Hs]; [done|].
    destruct (chop_junk_split s) as (w & Hw & Hj). rewrite Hnil in Hw.
    simpl in Hw. subst w. congruence.
  - rewrite Hs. by apply (ends_clean_snoc _ (c :: pre)).
Qed.

Lemma ends_clean_weaken (P Q : N → bool) s :
  (∀ c, Q c = true → P c = true) → ends_clean P s → ends_clean Q s.
Proof.
  intros HPQ. unfold ends_clean. destruct (reverse s) as [|c r]; [done|].
  simpl. intros Hc. destruct (Q c) eqn:HQ; [|done]. apply HPQ in HQ. congruence.
Qed.

(** A cleaned title is trimmed and has single spaces, and nothing is left
    to cut off. *)
Lemma clean_title_shape t :
  let u := clean_title db t in
  tidy u = true ∧ starts_clean isspace u ∧ ends_clean is_junk u.
Proof.
  intros u. subst u. rewrite clean_title_eq.
  set (c := re_sub db ws_run (fun _ => [32]) t).
  destruct (strip_split c) as (w1 & w2 & Hc & _).
  destruct (chop_junk_split (strip c)) as (w & Hw & _).
  split; [|split].
  - pose proof (collapse_tidy t) as Ht. fold c in Ht. rewrite Hc in Ht.
    apply tidy_app_r, tidy_app_l in Ht. rewrite Hw in Ht.
    by apply tidy_app_l in Ht.
  - pose proof (strip_starts_clean c) as Hs. rewrite Hw in Hs.
    by eapply starts_clean_prefix.
  - apply chop_junk_ends_clean.
Qed.

(** C9. Title cleaning is idempotent: cleaning a cleaned title changes
    nothing. Collapsing white space, trimming and cutting the trailing
    white space, dashes and colons reach a fixed point after one pass. *)
Theorem clean_title_idempotent t :
  clean_title db (clean_title db t) = clean_title db t.
Proof.
  destruct (clean_title_shape t) as (Ht & Hs & He).
  rewrite (clean_title_eq (clean_title db t)).
  rewrite tidy_collapse by done.
  rewrite strip_clean; [by apply chop_junk_clean|done|].
  eapply ends_clean_weaken; [apply isspace_is_junk|done].
Qed.

(** Cleaning removes or replaces junk characters only: the other
    characters of a title stay, in their order. *)
Lemma filter_junk_nil w :
  forallb is_junk w = true → filter (λ c, is_junk c = false) w = [].
Proof.
  induction w as [|c w IH]; [done|]. simpl. intros H.
  apply andb_prop in H as [Hc Hw]. rewrite filter_cons_False by congruence.
  by apply IH.
Qed.

Lemma filter_space_nil w :
  forallb isspace w = true → filter (λ c, is_junk c = false) w = [].
Proof.
  intros H. apply filter_junk_nil. rewrite forallb_forall in *.
  intros x Hx. by apply isspace_is_junk, H.
Qed.

Lemma collapse_keeps_bounded n s :
  (length s ≤ n)%nat →
  filter (λ c, is_junk c = false) (re_sub db ws_run (fun _ => [32]) s)
  = filter (λ c, is_junk c = false) s.
Proof.
  revert s. induction n as [|n IH]; intros [|c s] Hn; simpl in Hn; try done; try lia.
  destruct (isspace c) eqn:Hc.
  - rewrite collapse_space by done. pose proof (lstrip_length s).
    cbn [app]. rewrite (filter_cons_False _ 32) by (by vm_compute).
    rewrite (filter_cons_False _ c)
      by (pose proof (isspace_is_junk c Hc); congruence).
    rewrite IH by lia.
    destruct (lstrip_split s) as (w & Hs & Hw). rewrite Hs at 2.
    by rewrite filter_app, (filter_space_nil w).
  - rewrite collapse_other by done.
    destruct (is_junk c) eqn:Hj.
    + rewrite !filter_cons_False by congruence. apply IH. lia.
    + rewrite !filter_cons_True by done. f_equal. apply IH. lia.
Qed.

Lemma clean_title_keeps t :
  filter (λ c, is_junk c = false) (clean_title db t)
  = filter (λ c, is_junk c = false) t.
Proof.
  rewrite clean_title_eq.
  set (c := re_sub db ws_run (fun _ => [32]) t).
  rewrite <- (collapse_keeps_bounded (length t) t) by done. fold c.
  destruct (strip_split c) as (w1 & w2 & Hc & H1 & H2).
  destruct (chop_junk_split (strip c)) as (w & Hw & Hj).
  rewrite Hc at 2.
  rewrite !filter_app, (filter_space_nil w1), (filter_space_nil w2) by done.
  rewrite app_nil_r. cbn [app]. rewrite Hw at 2.
  by rewrite filter_app, (filter_junk_nil w), app_nil_r.
Qed.

(** A cleaned title is empty exactly when the title was all junk. *)
Lemma clean_title_nonempty t :
  clean_title db t ≠ [] ↔ ∃ c, c ∈ t ∧ is_junk c = false.
Proof.
  split.
  - intros Hne. destruct (clean_title_shape t) as (_ & _ & He).
    apply ends_clean_inv in He as [?|(pre & c & Hu & Hc)]; [done|].
    exists c. split; [|done].
    assert (c ∈ filter (λ c, is_junk c = false) (clean_title db t)) as Hin.
    { rewrite Hu. apply list_elem_of_filter. split; [done|].
      apply elem_of_app. right. by apply list_elem_of_singleton. }
    rewrite clean_title_keeps in Hin. by apply list_elem_of_filter in Hin as [_ ?].
  - intros (c & Hin & Hc) Hnil.
    assert (c ∈ filter (λ c, is_junk c = false) t) as Hf
      by (by apply list_elem_of_filter).
    rewrite <- clean_title_keeps, Hnil in Hf. by apply elem_of_nil in Hf.
Qed.

End Cleaning.

(** ** First occurrences *)

Section KeepFirst.

Context {A : Type} {EqA : EqDecision A} {CountA : Countable A}.

Implicit Types (l pre post : list A) (seen : gset A).

Lemma keep_first_app seen l1 l2 :
  keep_first seen (l1 ++ l2)
  = keep_first seen l1 ++ keep_first (list_to_set l1 ∪ seen) l2.
Proof.
  revert seen. induction l1 as [|x l1 IH]; intros seen; simpl.
  - by rewrite (left_id_L ∅ (∪)).
  - destruct (decide (x ∈ seen)) as [Hx|Hx]; rewrite IH.
    + do 2 f_equal. set_solver.
    + simpl. do 3 f_equal. set_solver.
Qed.

Lemma elem_of_keep_first seen l x :
  x ∈ keep_first seen l ↔ x ∈ l ∧ x ∉ seen.
Proof.
  revert seen. induction l as [|y l IH]; intros seen; simpl.
  - set_solver.
  - destruct (decide (y ∈ seen)) as [Hy|Hy].
    + rewrite IH. set_solver.
    + rewrite elem_of_cons, IH. destruct (decide (x = y)) as [->|]; set_solver.
Qed.

Lemma NoDup_keep_first seen l : NoDup (keep_first seen l).
Proof.
  revert seen. induction l as [|y l IH]; intros seen; simpl.
  - constructor.
  - destruct (decide (y ∈ seen)); [apply IH|].
    constructor; [|apply IH]. rewrite elem_of_keep_first. set_solver.
Qed.

(** Membership in [seen] matters only for the elements of the list. *)
Lemma keep_first_ext seen seen' l :
  (∀ x, x ∈ l → (x ∈ seen ↔ x ∈ seen')) →
  keep_first seen l = keep_first seen' l.
Proof.
  revert seen seen'. induction l as [|y l IH]; intros seen seen' Hl; [done|].
  simpl. destruct (decide (y ∈ seen)) as [Hy|Hy], (decide (y ∈ seen')) as [Hy'|Hy'].
  - apply IH. intros x Hx. apply Hl. by right.
  - apply Hl in Hy; [done|by left].
  - apply Hl in Hy'; [done|by left].
  - f_equal. apply IH. intros x Hx.
    assert (x ∈ seen ↔ x ∈ seen') by (apply Hl; by right). set_solver.
Qed.

(** An element is put out where it first occurs. *)
Lemma keep_first_first_occurrence pre x post :
  x ∉ pre →
  keep_first ∅ (pre ++ x :: post)
  = keep_first ∅ pre ++ x :: keep_first ({[ x ]} ∪ list_to_set pre) post.
Proof.
  intros Hx. rewrite keep_first_app. f_equal. simpl.
  destruct (decide (x ∈ list_to_set pre ∪ ∅)) as [Hin|_]; [set_solver|].
  f_equal. f_equal. set_solver.
Qed.

End KeepFirst.

(** ** The accession matcher *)

Section Accessions.

Variable db : UnicodeDB.

Implicit Types (found : list (list N * list N)) (seen : gset (list N * list N)).

Lemma record_match_fold (l : list N) (ms : list (list N)) found seen :
  foldl (record_match db l) (found, seen) ms
  = (found ++ keep_first seen ((λ m, (l, upper db m)) <$> ms),
     list_to_set ((λ m, (l, upper db m)) <$> ms) ∪ seen).
Proof.
  revert found seen. induction ms as [|m ms IH]; intros found seen.
  - simpl. by rewrite app_nil_r, (left_id_L ∅ (∪)).
  - cbn [foldl fmap list_fmap keep_first]. unfold record_match at 2. cbn [fst snd].
    destruct (decide ((l, upper db m) ∈ seen)) as [Hin|Hin]; rewrite IH.
    + f_equal. set_solver.
    + rewrite <- app_assoc. f_equal. set_solver.
Qed.

Lemma rules_fold (rules : list (list N * pattern)) (t d : list N) found seen :
  foldl (fun st rule =>
     foldl (fun st target =>
       foldl (record_match db rule.1) st (finditer db rule.2 target))
       st [t; d])
     (found, seen) rules
  = (found ++ keep_first seen
       (rules ≫= λ rule,
          (λ m, (rule.1, upper db m)) <$> (finditer db rule.2 t ++ finditer db rule.2 d)),
     list_to_set
       (rules ≫= λ rule,
          (λ m, (rule.1, upper db m)) <$> (finditer db rule.2 t ++ finditer db rule.2 d))
     ∪ seen).
Proof.
  revert found seen. induction rules as [|r rules IH]; intros found seen.
  - simpl. by rewrite app_nil_r, (left_id_L ∅ (∪)).
  - cbn [foldl mbind list_bind]. rewrite <- foldl_app, record_match_fold, IH.
    rewrite keep_first_app, app_assoc. f_equal. set_solver.
Qed.

(** The matcher puts out the candidates without their repetitions. *)
Lemma find_accessions_keep_first t :
  find_accessions db t = keep_first ∅ (candidates db t).
Proof. unfold find_accessions, candidates. by rewrite rules_fold. Qed.

Lemma labels_distinct : NoDup (COMPILED.*1).
Proof. apply (bool_decide_unpack _). by vm_compute. Qed.

(** Rules with distinct labels do not take hits from one another: each rule
    contributes its own block. *)
Lemma keep_first_by_rule (rules : list (list N * pattern))
    (ms : list N * pattern → list (list N)) seen :
  NoDup (rules.*1) →
  (∀ x, x ∈ seen → x.1 ∉ rules.*1) →
  keep_first seen (rules ≫= λ rule, (λ m, (rule.1, upper db m)) <$> ms rule)
  = rules ≫= λ rule, keep_first ∅ ((λ m, (rule.1, upper db m)) <$> ms rule).
Proof.
  revert seen. induction rules as [|r rules IH]; intros seen Hnd Hseen; [done|].
  cbn [mbind list_bind]. rewrite keep_first_app. cbn [fmap list_fmap] in Hnd.
  apply NoDup_cons in Hnd as [Hr Hnd]. f_equal.
  - apply keep_first_ext. intros x Hx.
    apply list_elem_of_fmap in Hx as (m & -> & _). split; [|set_solver].
    intros Hin. apply Hseen in Hin. set_solver.
  - apply IH; [done|]. intros x Hx. apply elem_of_union in Hx as [Hx|Hx].
    + apply elem_of_list_to_set, list_elem_of_fmap in Hx as (m & -> & _). done.
    + apply Hseen in Hx. set_solver.
Qed.

(** C4. For every text the matcher reports a (label, identifier) pair at
    most once, however often and in whichever of the two surfaces the
    identifier stands; every reported identifier is the upper-cased text of
    a match of the rule of its label; and the text with "GSE1234",
    "gse1234" and "GSE1234" again, where the rule matches three times,
    yields the one hit (GEO Series, GSE1234), whatever the tables are
    outside of Basic Latin. *)
Theorem find_accessions_unique t :
  NoDup (find_accessions db t)
  ∧ (∀ hit, hit ∈ find_accessions db t ↔
       ∃ rule m, rule ∈ COMPILED
         ∧ (m ∈ finditer db rule.2 t ∨ m ∈ finditer db rule.2 (dehyphen db t))
         ∧ hit = (rule.1, upper db m))
  ∧ (latin_faithful db →
     (∃ rx, COMPILED !! 1%nat = Some (text "GEO Series", rx)
            ∧ finditer db rx (text "GSE1234, gse1234 and GSE1234")
              = [text "GSE1234"; text "gse1234"; text "GSE1234"])
     ∧ find_accessions db (text "GSE1234, gse1234 and GSE1234")
       = [(text "GEO Series", text "GSE1234")]).
Proof.
  split; [|split].
  - rewrite find_accessions_keep_first. apply NoDup_keep_first.
  - intros hit. rewrite find_accessions_keep_first, elem_of_keep_first.
    unfold candidates. rewrite list_elem_of_bind. split.
    + intros [(rule & Hhit & Hrule) _].
      apply list_elem_of_fmap in Hhit as (m & -> & Hm).
      exists rule, m. by rewrite elem_of_app in Hm.
    + intros (rule & m & Hrule & Hm & ->). split; [|set_solver].
      exists rule. split; [|done]. apply list_elem_of_fmap.
      exists m. by rewrite elem_of_app.
  - intros Hdb. apply latin_part_same in Hdb. split.
    + eexists. split; [reflexivity|]. rewrite (finditer_same _ _ Hdb). by vm_compute.
    + rewrite (find_accessions_same _ _ Hdb). by vm_compute.
Qed.

(** C5. The hits come rule by rule in the order of the registry; within a
    rule come first the matches of the raw text in their order, then the
    matches of the normalized text that the raw text did not give; and a
    pair stands where it occurs first among the candidates. *)
Theorem find_accessions_order t :
  find_accessions db t
  = (rule ← COMPILED;
     keep_first ∅ ((λ m, (rule.1, upper db m)) <$> finditer db rule.2 t)
     ++ keep_first (list_to_set ((λ m, (rule.1, upper db m)) <$> finditer db rule.2 t))
          ((λ m, (rule.1, upper db m)) <$> finditer db rule.2 (dehyphen db t)))
  ∧ ∀ pre hit post,
      candidates db t = pre ++ hit :: post → hit ∉ pre →
      find_accessions db t
      = keep_first ∅ pre ++ hit :: keep_first ({[ hit ]} ∪ list_to_set pre) post.
Proof.
  split.
  - rewrite find_accessions_keep_first. unfold candidates.
    rewrite (keep_first_by_rule COMPILED
               (λ rule, finditer db rule.2 t ++ finditer db rule.2 (dehyphen db t)));
      [|apply labels_distinct|set_solver].
    apply list_bind_ext; [|done]. intros rule.
    rewrite fmap_app, keep_first_app. by rewrite (right_id_L ∅ (∪)).
  - intros pre hit post Hc Hpre. rewrite find_accessions_keep_first, Hc.
    by apply keep_first_first_occurrence.
Qed.

End Accessions.

(** ** The dehyphenation *)

Section Dehyphenation.

Variable db : UnicodeDB.

Lemma occurs_here_inv s :
  occurs_here db s = true →
  ∃ c1 c2 s', s = c1 :: 45 :: 10 :: c2 :: s'
              ∧ is_word db c1 = true ∧ is_word db c2 = true.
Proof.
  destruct s as [|c1 [|h [|n [|c2 s']]]]; try done. simpl. intros H.
  apply andb_prop in H as [H H2]. apply andb_prop in H as [H Hn].
  apply andb_prop in H as [H1 Hh].
  apply N.eqb_eq in Hh as ->. apply N.eqb_eq in Hn as ->. by exists c1, c2, s'.
Qed.

Lemma pmatch_hyphen_break s :
  pmatch db hyphen_break s = if occurs_here db s then Some 4%nat else None.
Proof.
  unfold pmatch, hyphen_break, occurs_here, is_word. cbn [ignorecase items].
  destruct s as [|c1 [|h [|n [|c2 s']]]]; simpl; rewrite ?orb_false_r; try done;
    repeat (match goal with |- context [if ?b then _ else _] => destruct b end;
            simpl; try done).
Qed.

Lemma dehyphen_hit c1 c2 s :
  is_word db c1 = true → is_word db c2 = true →
  dehyphen db (c1 :: 45 :: 10 :: c2 :: s) = c1 :: c2 :: dehyphen db s.
Proof.
  intros H1 H2. unfold dehyphen. rewrite re_sub_cons, pmatch_hyphen_break.
  simpl. by rewrite H1, H2.
Qed.

Lemma dehyphen_miss c s :
  occurs_here db (c :: s) = false → dehyphen db (c :: s) = c :: dehyphen db s.
Proof.
  intros H. unfold dehyphen. by rewrite re_sub_cons, pmatch_hyphen_break, H.
Qed.

Lemma dehyphen_leftmost pre c1 c2 post :
  is_word db c1 = true → is_word db c2 = true →
  (∀ i, (i < length pre)%nat →
        occurs_here db (drop i (pre ++ c1 :: 45 :: 10 :: c2 :: post)) = false) →
  dehyphen db (pre ++ c1 :: 45 :: 10 :: c2 :: post)
  = pre ++ c1 :: c2 :: dehyphen db post.
Proof.
  intros H1 H2. induction pre as [|x pre IH]; intros Hpre.
  - by apply dehyphen_hit.
  - cbn [app]. rewrite dehyphen_miss.
    + f_equal. apply IH. intros i Hi. apply (Hpre (S i)). simpl. lia.
    + apply (Hpre O). simpl. lia.
Qed.

Lemma dehyphen_none t :
  (∀ i, occurs_here db (drop i t) = false) → dehyphen db t = t.
Proof.
  induction t as [|c t IH]; intros Ht; [done|].
  rewrite dehyphen_miss by apply (Ht O). f_equal.
  apply IH. intros i. apply (Ht (S i)).
Qed.

Lemma dehyphen_drops_bounded n t :
  (length t ≤ n)%nat → drops_breaks t (dehyphen db t).
Proof.
  revert t. induction n as [|n IH]; intros [|c t] Hn; simpl in Hn;
    try lia; try constructor.
  destruct (occurs_here db (c :: t)) eqn:Ho.
  - apply occurs_here_inv in Ho as (c1 & c2 & s' & Hs & H1 & H2).
    rewrite Hs, dehyphen_hit by done.
    injection Hs as -> ->. simpl in Hn.
    do 3 constructor. apply IH. lia.
  - rewrite dehyphen_miss by done. constructor. apply IH. lia.
Qed.

Lemma occurs_here_hyphen_break s :
  occurs_here db s = true → has_hyphen_break s = true.
Proof.
  intros H. apply occurs_here_inv in H as (c1 & c2 & s' & -> & _). simpl.
  apply orb_true_r.
Qed.

Lemma dehyphen_without_break t :
  has_hyphen_break t = false → dehyphen db t = t.
Proof.
  induction t as [|c t IH]; [done|]. intros H.
  rewrite dehyphen_miss.
  - f_equal. apply IH. cbn [has_hyphen_break] in H.
    by apply orb_false_elim in H as [_ ?].
  - destruct (occurs_here db (c :: t)) eqn:Ho; [|done].
    apply occurs_here_hyphen_break in Ho. congruence.
Qed.

Lemma collapse_every_step prev c s :
  collapse_every_from db prev false (c :: s) =
    if match prev with
       | Some c0 => occurs_here db (c0 :: c :: s)
       | None => false
       end
    then collapse_every_from db (Some c) true s
    else c :: collapse_every_from db (Some c) false s.
Proof.
  cbn [collapse_every_from occurs_here].
  destruct prev as [c0|]; cbn [from_option].
  - destruct s as [|n [|c2 s']]; rewrite ?andb_false_r; try done.
    by destruct (c =? 45), (is_word db c0), (n =? 10), (is_word db c2).
  - by rewrite andb_false_r.
Qed.

(** Where no two occurrences share a word character, the program collapses
    every occurrence. *)
Lemma collapse_every_bounded n prev s :
  (length s ≤ n)%nat →
  is_word db 45 = false →
  (∀ i, occurs_here db (drop i s) = true → occurs_here db (drop (3 + i) s) = false) →
  (∀ c0, prev = Some c0 → occurs_here db (c0 :: s) = false) →
  collapse_every_from db prev false s = dehyphen db s.
Proof.
  intros Hlen H45. revert prev s Hlen.
  induction n as [|n IH]; intros prev [|c s] Hlen Hno Hprev;
    simpl in Hlen; try done; try lia.
  rewrite collapse_every_step.
  assert (match prev with
          | Some c0 => occurs_here db (c0 :: c :: s)
          | None => false
          end = false) as ->.
  { destruct prev as [c0|]; [by apply Hprev|done]. }
  destruct (occurs_here db (c :: s)) eqn:Ho.
  - pose proof (Hno O Ho) as Hnext.
    apply occurs_here_inv in Ho as (c1 & c2 & s' & [= -> ->] & H1 & H2).
    rewrite dehyphen_hit by done. f_equal.
    rewrite collapse_every_step. cbn [occurs_here]. rewrite H1, H2. simpl.
    assert ((c2 =? 45) = false) as Hc2.
    { apply N.eqb_neq. intros ->. congruence. }
    rewrite Hc2. simpl. f_equal.
    simpl in Hlen. apply IH; [lia| |].
    + intros i Hi. apply (Hno (4 + i)%nat Hi).
    + intros c0 [= <-]. exact Hnext.
  - rewrite dehyphen_miss by done. f_equal. apply IH; [lia| |].
    + intros i Hi. apply (Hno (S i) Hi).
    + by intros c0 [= <-].
Qed.

Lemma dehyphen_collapse_every t :
  is_word db 45 = false →
  (∀ i, occurs_here db (drop i t) = true → occurs_here db (drop (3 + i) t) = false) →
  dehyphen db t = collapse_every db t.
Proof.
  intros H45 Hno. symmetry.
  by apply (collapse_every_bounded (length t) None t).
Qed.

(** C6, as the program has it. The normalization scans the text from the
    left and replaces each occurrence of word character, hyphen, line
    feed, word character it meets by the two word characters, resuming
    behind the occurrence; a text without occurrence is unchanged, and
    where no two occurrences share a word character (the hyphen not being
    one) every occurrence is collapsed. Only
    pairs of a hyphen and a directly following line feed are deleted, so a
    hyphen that no line feed follows stays, and a text without such a pair
    is unchanged. "PRJEB12-", line feed, "345" is normalized to
    "PRJEB12345", which the raw text does not match and the matcher
    reports, whatever the tables are outside of Basic Latin. *)
Theorem dehyphen_collapses_leftmost :
  (∀ pre c1 c2 post,
     is_word db c1 = true → is_word db c2 = true →
     (∀ i, (i < length pre)%nat →
           occurs_here db (drop i (pre ++ c1 :: 45 :: 10 :: c2 :: post)) = false) →
     dehyphen db (pre ++ c1 :: 45 :: 10 :: c2 :: post)
     = pre ++ c1 :: c2 :: dehyphen db post)
  ∧ (∀ t, (∀ i, occurs_here db (drop i t) = false) → dehyphen db t = t)
  ∧ (∀ t, is_word db 45 = false →
          (∀ i, occurs_here db (drop i t) = true →
                occurs_here db (drop (3 + i) t) = false) →
          dehyphen db t = collapse_every db t)
  ∧ (∀ t, drops_breaks t (dehyphen db t))
  ∧ (∀ t, has_hyphen_break t = false → dehyphen db t = t)
  ∧ (latin_faithful db →
     dehyphen db (text "PRJEB12-" ++ [10] ++ text "345") = text "PRJEB12345"
     ∧ (∃ rx, COMPILED !! 0%nat = Some (text "ENA Project", rx)
              ∧ finditer db rx (text "PRJEB12-" ++ [10] ++ text "345") = [])
     ∧ find_accessions db (text "PRJEB12-" ++ [10] ++ text "345")
       = [(text "ENA Project", text "PRJEB12345")]).
Proof.
  split; [|split; [|split; [|split; [|split]]]].
  - apply dehyphen_leftmost.
  - apply dehyphen_none.
  - apply dehyphen_collapse_every.
  - intros t. by apply (dehyphen_drops_bounded (length t)).
  - apply dehyphen_without_break.
  - intros Hdb. apply latin_part_same in Hdb. split; [|split].
    + rewrite (dehyphen_same _ _ Hdb). by vm_compute.
    + eexists. split; [reflexivity|]. rewrite (finditer_same _ _ Hdb). by vm_compute.
    + rewrite (find_accessions_same _ _ Hdb). by vm_compute.
Qed.

End Dehyphenation.

(** C6, counterexample. In "a-", line feed, "b-", line feed, "c" two
    occurrences share the word character "b". The program collapses the
    first only: the second is still in its result, where collapsing every
    occurrence gives "abc". *)
Lemma dehyphen_overlap_kept :
  dehyphen basic_latin [97; 45; 10; 98; 45; 10; 99] = [97; 98; 45; 10; 99]
  ∧ occurs_here basic_latin (drop 1 (dehyphen basic_latin [97; 45; 10; 98; 45; 10; 99])) = true
  ∧ collapse_every basic_latin [97; 45; 10; 98; 45; 10; 99] = [97; 98; 99]
  ∧ dehyphen basic_latin [97; 45; 10; 98; 45; 10; 99]
    ≠ collapse_every basic_latin [97; 45; 10; 98; 45; 10; 99].
Proof. by vm_compute. Qed.

(** ** The title cascade *)

Section Titles.

Variable db : UnicodeDB.

Lemma Qgtb_true a b : Qgtb a b = true ↔ (b < a)%Q.
Proof.
  unfold Qgtb. rewrite Qgt_alt. destruct (a ?= b)%Q; split; congruence.
Qed.

Lemma Qgtb_false a b : Qgtb a b = false ↔ (a <= b)%Q.
Proof.
  unfold Qgtb. rewrite Qle_alt. destruct (a ?= b)%Q; split; congruence.
Qed.

(** The three loops visit the spans in block, line, span order. *)
Lemma scan_lines best (block : list (list span)) :
  foldl (fun best line => foldl (span_step db) best line) best block
  = foldl (span_step db) best (concat block).
Proof.
  revert best. induction block as [|line block IH]; intros best; [done|].
  simpl. by rewrite foldl_app, IH.
Qed.

Lemma scan_blocks best (blocks : list (list (list span))) :
  foldl (fun best block =>
    foldl (fun best line => foldl (span_step db) best line) best block)
    best blocks
  = foldl (span_step db) best (spans_of blocks).
Proof.
  unfold spans_of. revert best.
  induction blocks as [|block blocks IH]; intros best; [done|].
  simpl. by rewrite concat_app, foldl_app, IH, scan_lines.
Qed.

Lemma scan_spans_flat blocks :
  scan_spans db blocks = foldl (span_step db) ((-1)%Q, []) (spans_of blocks).
Proof. apply scan_blocks. Qed.

Lemma scan_keeps (post : list span) b (txt : list N) :
  (∀ x, x ∈ post → qualifies db x = true → (span_sz x <= b)%Q) →
  foldl (span_step db) (b, txt) post = (b, txt).
Proof.
  induction post as [|x post IH]; intros Hpost; [done|].
  simpl. unfold span_step at 2. cbn [fst].
  destruct (qualifies db x) eqn:Hq.
  - assert (Qgtb (span_sz x) b = false) as ->.
    { apply Qgtb_false, Hpost; [by left|done]. }
    apply IH. intros y Hy. apply Hpost. by right.
  - apply IH. intros y Hy. apply Hpost. by right.
Qed.

Lemma scan_below (pre : list span) (best : Q * list N) (top : Q) :
  (best.1 < top)%Q →
  (∀ x, x ∈ pre → qualifies db x = true → (span_sz x < top)%Q) →
  ((foldl (span_step db) best pre).1 < top)%Q.
Proof.
  revert best. induction pre as [|x pre IH]; intros best Hb Hpre; [done|].
  simpl. apply IH.
  - unfold span_step. destruct (qualifies db x) eqn:Hq; [|done].
    destruct (Qgtb (span_sz x) best.1); [|done].
    simpl. apply Hpre; [by left|done].
  - intros y Hy. apply Hpre. by right.
Qed.

(** The first of the qualifying spans of the largest size is selected. *)
Lemma scan_selects (pre post : list span) (w : span) :
  qualifies db w = true →
  (-1 < span_sz w)%Q →
  (∀ x, x ∈ pre → qualifies db x = true → (span_sz x < span_sz w)%Q) →
  (∀ x, x ∈ post → qualifies db x = true → (span_sz x <= span_sz w)%Q) →
  foldl (span_step db) ((-1)%Q, []) (pre ++ w :: post) = (span_sz w, span_txt w).
Proof.
  intros Hw Hsz Hpre Hpost. rewrite foldl_app. cbn [foldl].
  pose proof (scan_below pre ((-1)%Q, []) (span_sz w) Hsz Hpre) as Hb.
  unfold span_step at 2. rewrite Hw.
  apply Qgtb_true in Hb. rewrite Hb. by apply scan_keeps.
Qed.

(** What is selected is a qualifying span, if anything is. *)
Lemma scan_result (l : list span) (best : Q * list N) :
  foldl (span_step db) best l = best
  ∨ ∃ x, x ∈ l ∧ qualifies db x = true
         ∧ foldl (span_step db) best l = (span_sz x, span_txt x).
Proof.
  revert best. induction l as [|x l IH]; intros best; [by left|].
  simpl. destruct (IH (span_step db best x)) as [Hsame|(y & Hy & Hq & Hres)].
  - rewrite Hsame. unfold span_step.
    destruct (qualifies db x) eqn:Hq; [|by left].
    destruct (Qgtb (span_sz x) best.1); [|by left].
    right. exists x. split; [by left|done].
  - right. exists y. split; [by right|done].
Qed.

Lemma qualifies_nonempty sp : qualifies db sp = true → nonempty (span_txt sp) = true.
Proof.
  unfold qualifies. intros H. apply andb_prop in H as [H _].
  by apply andb_prop in H as [H _].
Qed.

Lemma isupper_from_uncased s :
  (∀ c, c ∈ s → u_isupper db c = false) → isupper_from db false s = false.
Proof.
  induction s as [|c s IH]; intros Hs; [done|]. simpl.
  destruct (u_islower db c || u_istitle db c); [done|].
  rewrite (Hs c) by (by left). simpl. apply IH. intros x Hx. apply Hs. by right.
Qed.

Lemma strip_nil : strip [] = [].
Proof. done. Qed.

Lemma strip_strip s : strip (strip s) = strip s.
Proof. apply strip_clean; [apply strip_starts_clean|apply strip_ends_clean]. Qed.

Lemma nonempty_true {A} (l : list A) : nonempty l = true ↔ l ≠ [].
Proof. by destruct l. Qed.

Lemma first_line_some ls L :
  first_line ls = Some L → strip L = L ∧ (5 < length L)%nat.
Proof.
  induction ls as [|l ls IH]; [done|]. simpl.
  destruct (nonempty (strip l) && (5 <? length (strip l))%nat) eqn:Hl; [|done].
  intros [= <-]. apply andb_prop in Hl as [_ Hl]. apply Nat.ltb_lt in Hl.
  split; [apply strip_strip|done].
Qed.

Lemma guess_title_raw doc stem :
  guess_title_from_first_page db doc stem
  = from_option (clean_title db) stem (raw_candidate db doc).
Proof.
  unfold guess_title_from_first_page, guess_title_tier, raw_candidate.
  destruct (meta_usable _); [done|].
  destruct (pages doc) as [|page0 ps]; [done|].
  destruct (nonempty _); [done|].
  by destruct (first_line _).
Qed.

Lemma guess_title_largest doc stem p ps (pre post : list span) (w : span) :
  meta_usable (default [] (meta_title doc)) = false →
  pages doc = p :: ps →
  spans_of (page_blocks p) = pre ++ w :: post →
  qualifies db w = true →
  (-1 < span_sz w)%Q →
  (∀ x, x ∈ pre → qualifies db x = true → (span_sz x < span_sz w)%Q) →
  (∀ x, x ∈ post → qualifies db x = true → (span_sz x <= span_sz w)%Q) →
  guess_title_tier db doc stem = (LargestSpan, clean_title db (span_txt w)).
Proof.
  intros Hmeta Hpages Hspans Hw Hsz Hpre Hpost. unfold guess_title_tier.
  rewrite Hmeta, Hpages, scan_spans_flat, Hspans, scan_selects by done.
  cbn [snd]. by rewrite qualifies_nonempty.
Qed.

Lemma guess_title_largest_inv doc stem p ps title :
  pages doc = p :: ps →
  guess_title_tier db doc stem = (LargestSpan, title) →
  ∃ w, w ∈ spans_of (page_blocks p) ∧ qualifies db w = true
       ∧ title = clean_title db (span_txt w).
Proof.
  intros Hpages. unfold guess_title_tier. rewrite Hpages.
  destruct (meta_usable _); [done|]. rewrite scan_spans_flat.
  destruct (scan_result (spans_of (page_blocks p)) ((-1)%Q, []))
    as [Hsame|(w & Hin & Hq & Hres)].
  - rewrite Hsame. simpl. by destruct (first_line _).
  - rewrite Hres. cbn [snd]. rewrite qualifies_nonempty by done.
    intros [= <-]. by exists w.
Qed.

Lemma qualifies_iff sp :
  qualifies db sp = true
  ↔ (5 < length (span_txt sp))%nat ∧ isupper db (span_txt sp) = false.
Proof.
  unfold qualifies. rewrite !andb_true_iff, negb_true_iff, Nat.ltb_lt.
  split; [naive_solver|]. intros [Hlen Hup]. split; [|done]. split; [|done].
  destruct (span_txt sp); [simpl in Hlen; lia|done].
Qed.

End Titles.
(** ** The worked title inputs *)

Lemma guess_title_three_spans db t10 t24 name :
  latin_faithful db →
  isupper db (strip t24) = true →
  guess_title_tier db (three_spans t10 t24) name
  = (LargestSpan, text "A Study of Regulatory Elements").
Proof.
  intros Hdb Hup. apply latin_part_same in Hdb.
  assert (guess_title_tier db (three_spans t10 t24) name
          = (LargestSpan,
             clean_title db
               (span_txt (span_of (text "A Study of Regulatory Elements") 12))))
    as ->.
  { apply (guess_title_largest db _ name
             {| page_text := [];
                page_blocks :=
                  [[[ span_of t10 10; span_of t24 24;
                      span_of (text "A Study of Regulatory Elements") 12 ]]] |}
             [] [span_of t10 10; span_of t24 24] []).
    - reflexivity.
    - reflexivity.
    - reflexivity.
    - rewrite (qualifies_same _ _ Hdb). by vm_compute.
    - reflexivity.
    - intros x Hx Hq. apply elem_of_cons in Hx as [->|Hx]; [reflexivity|].
      apply list_elem_of_singleton in Hx as ->.
      unfold qualifies in Hq.
      change (span_txt (span_of t24 24)) with (strip t24) in Hq.
      rewrite Hup in Hq. by rewrite andb_false_r in Hq.
    - intros x Hx. by apply elem_of_nil in Hx. }
  rewrite (clean_title_same _ _ Hdb). by vm_compute.
Qed.

(** ** The tiers of the cascade *)

Section Tiers.

Variable db : UnicodeDB.

(** C7. When the metadata tier does not apply and the document has a first
    page: a span qualifies exactly when its trimmed text has more than
    five characters and is not upper-case; the qualifying span whose size
    is larger than that of every qualifying span before it and not smaller
    than that of any after it gives the title (sizes being above the -1
    the scan starts from); a title of this tier always comes from a
    qualifying span; and with spans of the sizes 10, 24 and 12, the second
    upper-case, the text of the third is the title, whatever the first
    two read and whatever the tables are outside of Basic Latin. *)
Theorem largest_span_wins doc stem p ps :
  meta_usable (default [] (meta_title doc)) = false →
  pages doc = p :: ps →
  (∀ sp, qualifies db sp = true
         ↔ (5 < length (span_txt sp))%nat ∧ isupper db (span_txt sp) = false)
  ∧ (∀ pre w post,
       spans_of (page_blocks p) = pre ++ w :: post →
       qualifies db w = true →
       (-1 < span_sz w)%Q →
       (∀ x, x ∈ pre → qualifies db x = true → (span_sz x < span_sz w)%Q) →
       (∀ x, x ∈ post → qualifies db x = true → (span_sz x <= span_sz w)%Q) →
       guess_title_tier db doc stem = (LargestSpan, clean_title db (span_txt w)))
  ∧ (∀ title,
       guess_title_tier db doc stem = (LargestSpan, title) →
       ∃ w, w ∈ spans_of (page_blocks p) ∧ qualifies db w = true
            ∧ title = clean_title db (span_txt w))
  ∧ (∀ t10 t24 name,
       latin_faithful db →
       isupper db (strip t24) = true →
       guess_title_from_first_page db (three_spans t10 t24) name
       = text "A Study of Regulatory Elements").
Proof.
  intros Hmeta Hpages. split; [|split; [|split]].
  - apply qualifies_iff.
  - intros pre w post. by apply (guess_title_largest db doc stem p ps).
  - intros title. by apply (guess_title_largest_inv db doc stem p ps).
  - intros t10 t24 name Hdb Hup. unfold guess_title_from_first_page.
    by rewrite (guess_title_three_spans db t10 t24 name Hdb Hup).
Qed.

Lemma meta_usable_iff m :
  meta_usable m = true ↔ strip m ≠ [] ∧ (3 < length (strip m))%nat.
Proof.
  unfold meta_usable. rewrite !andb_true_iff, !nonempty_true, Nat.ltb_lt.
  split; [naive_solver|]. intros [Hs Hlen]. split; [|done]. split; [|done].
  intros ->. by apply Hs.
Qed.

(** C8. The metadata tier is the one that returns exactly when the document
    has a metadata title whose trimmed form is not blank and has more than
    three characters; then the title is the cleaned metadata title,
    whatever the pages hold. *)
Theorem metadata_tier doc stem :
  ((guess_title_tier db doc stem).1 = Metadata
     ↔ ∃ t, meta_title doc = Some t ∧ strip t ≠ []
            ∧ (3 < length (strip t))%nat)
  ∧ (∀ t ps name,
       strip t ≠ [] → (3 < length (strip t))%nat →
       guess_title_tier db {| meta_title := Some t; pages := ps |} name
       = (Metadata, clean_title db t)).
Proof.
  split.
  - unfold guess_title_tier.
    destruct (meta_usable (default [] (meta_title doc))) eqn:Hm.
    + split; [intros _|done]. apply meta_usable_iff in Hm as [Hs Hlen].
      destruct (meta_title doc) as [t|]; [by exists t|done].
    + split.
      * destruct (pages doc) as [|page0 ?]; [done|].
        destruct (nonempty _); [done|]. by destruct (first_line _).
      * intros (t & Ht & Hs & Hlen). rewrite Ht in Hm. simpl in Hm.
        assert (meta_usable t = true) by (by apply meta_usable_iff). congruence.
  - intros t ps name Hs Hlen. unfold guess_title_tier. cbn [meta_title default from_option id].
    assert (meta_usable t = true) as Hm by (by apply meta_usable_iff).
    simpl. by rewrite Hm.
Qed.

(** C10. A span whose trimmed text has no cased letter passes the
    upper-case test; if the text has more than five characters and the
    size of the span is larger than that of every other span of the first
    page, the text is the title (the metadata tier not applying). *)
Theorem uncased_span_selected doc stem p ps pre w post :
  meta_usable (default [] (meta_title doc)) = false →
  pages doc = p :: ps →
  spans_of (page_blocks p) = pre ++ w :: post →
  (∀ c, c ∈ span_txt w →
        u_isupper db c = false ∧ u_islower db c = false ∧ u_istitle db c = false) →
  (5 < length (span_txt w))%nat →
  (-1 < span_sz w)%Q →
  (∀ x, x ∈ pre ++ post → (span_sz x < span_sz w)%Q) →
  isupper db (span_txt w) = false
  ∧ qualifies db w = true
  ∧ guess_title_tier db doc stem = (LargestSpan, clean_title db (span_txt w)).
Proof.
  intros Hmeta Hpages Hspans Huncased Hlen Hsz Hlargest.
  assert (isupper db (span_txt w) = false) as Hup.
  { apply (isupper_from_uncased db). intros c Hc. by apply Huncased. }
  assert (qualifies db w = true) as Hq by (by apply qualifies_iff).
  split; [done|]. split; [done|].
  apply (guess_title_largest db doc stem p ps pre post w); try done.
  - intros x Hx _. apply Hlargest, elem_of_app. by left.
  - intros x Hx _. apply Qlt_le_weak, Hlargest, elem_of_app. by right.
Qed.

Lemma raw_candidate_gate doc stem c :
  raw_candidate db doc = Some c →
  (3 < length (strip c))%nat
  ∧ ((guess_title_tier db doc stem).1 ≠ Metadata → (5 < length (strip c))%nat).
Proof.
  unfold raw_candidate, guess_title_tier.
  destruct (meta_usable (default [] (meta_title doc))) eqn:Hm.
  { intros [= <-]. by apply meta_usable_iff in Hm as [_ ?]. }
  destruct (pages doc) as [|page0 ps]; [done|]. rewrite scan_spans_flat.
  destruct (scan_result db (spans_of (page_blocks page0)) ((-1)%Q, []))
    as [Hsame|(w & Hin & Hq & Hres)].
  - rewrite Hsame. simpl. intros HL.
    apply first_line_some in HL as [-> ?]. split; [lia|done].
  - rewrite Hres. cbn [snd]. rewrite (qualifies_nonempty db) by done.
    intros [= <-]. apply qualifies_iff in Hq as [Hlen _].
    unfold span_txt in *. rewrite strip_strip. split; [lia|done].
Qed.

(** How far an empty title can come about. For a document with a
    non-empty file stem the title is the cleaned candidate of the first
    tier whose test passes, or the stem; the test is made on the trimmed
    candidate before it is cleaned (more than three characters, and more
    than five below the metadata tier), not on the cleaned one; so the
    title is empty exactly when the accepted candidate has only white
    space, dashes and colons. *)
Theorem title_nonempty_unless_junk doc stem :
  stem ≠ [] →
  guess_title_from_first_page db doc stem
  = from_option (clean_title db) stem (raw_candidate db doc)
  ∧ (∀ c, raw_candidate db doc = Some c →
          (3 < length (strip c))%nat
          ∧ ((guess_title_tier db doc stem).1 ≠ Metadata →
             (5 < length (strip c))%nat))
  ∧ (guess_title_from_first_page db doc stem ≠ []
     ↔ ∀ c, raw_candidate db doc = Some c → ∃ x, x ∈ c ∧ is_junk x = false).
Proof.
  intros Hstem. split; [apply guess_title_raw|].
  split; [intros c; apply raw_candidate_gate|].
  rewrite guess_title_raw. destruct (raw_candidate db doc) as [c|]; simpl.
  - rewrite clean_title_nonempty. split.
    + by intros Hc c' [= <-].
    + intros Hc. by apply Hc.
  - split; [done|]. by intros _.
Qed.

(** The stem of a file name is not empty. *)
Lemma stem_nonempty name : name ≠ [] → stem name ≠ [].
Proof.
  intros Hname. unfold stem. destruct (rfind 46 name) as [i|]; [|done].
  destruct ((0 <? i)%nat && (i <? length name - 1)%nat) eqn:Hi; [|done].
  apply andb_prop in Hi as [Hi _]. apply Nat.ltb_lt in Hi.
  destruct name, i; try done; lia.
Qed.

End Tiers.

(** ** The batch loop *)

Section Batch.

Variable db : UnicodeDB.

Lemma extend_initial st : extend initial st = st.
Proof. by destruct st. Qed.

Lemma extend_assoc s1 s2 s3 :
  extend (extend s1 s2) s3 = extend s1 (extend s2 s3).
Proof. unfold extend. simpl. f_equal; [by rewrite app_assoc..|lia]. Qed.

(** A turn of the loop appends to the state and reads nothing of it. *)
Lemma try_body_extend a f st :
  try_body db a f st
  = (extend st (try_body db a f initial).1, (try_body db a f initial).2).
Proof.
  unfold try_body. destruct (title_of_pdf db f) as [title|e].
  2: { simpl. by destruct st; unfold extend; simpl; rewrite !app_nil_r, Nat.add_0_r. }
  destruct (extract_pdf_text f) as [t|e].
  2: { simpl. by destruct st; unfold extend; simpl; rewrite !app_nil_r, Nat.add_0_r. }
  destruct (nonempty (find_accessions db t)), (move_done a);
    try destruct (pdf_move f); unfold extend; simpl;
    by rewrite ?Nat.add_0_r.
Qed.

Lemma process_extend a st f :
  process db a st f = extend st (process db a initial f).
Proof.
  unfold process. rewrite try_body_extend.
  destruct (try_body db a f initial) as [st' [e|]]; cbn [fst snd].
  - unfold handler, extend. simpl. f_equal; by rewrite app_assoc.
  - done.
Qed.

Lemma run_from a st fs :
  foldl (process db a) st fs = extend st (run db a fs).
Proof.
  unfold run. revert st. induction fs as [|f fs IH]; intros st.
  - simpl. destruct st. unfold extend. simpl. by rewrite !app_nil_r, Nat.add_0_r.
  - simpl. rewrite IH, (IH (process db a initial f)), process_extend.
    apply extend_assoc.
Qed.

Lemma run_cons a f fs :
  run db a (f :: fs) = extend (process db a initial f) (run db a fs).
Proof. unfold run at 1. simpl. apply run_from. Qed.

Lemma run_app a fs1 fs2 :
  run db a (fs1 ++ fs2) = extend (run db a fs1) (run db a fs2).
Proof. unfold run at 1. rewrite foldl_app. apply run_from. Qed.

Lemma main_run a fs : fs ≠ [] → main db a fs = Some (run db a fs).
Proof. unfold main. by destruct fs. Qed.

Lemma process_raised a f e :
  raised db a f = Some e →
  process db a initial f = handler a f e (try_body db a f initial).1.
Proof.
  unfold raised, process. destruct (try_body db a f initial) as [st' [e'|]]; [|done].
  by intros [= ->].
Qed.

Lemma process_finished a f :
  raised db a f = None →
  process db a initial f = (try_body db a f initial).1.
Proof.
  unfold raised, process. by destruct (try_body db a f initial) as [st' [e'|]].
Qed.

(** C3. When the processing of a document raises, the loop appends for it a
    row and (with the JSONL output on) an object whose title is "ERROR: "
    and the class of the exception, without accession, the object carrying
    the message of the exception; the batch runs on, and what the documents
    before and after contribute is what they contribute to a batch without
    the failing document. When the title inference or the text extraction
    raised, nothing else is appended for the document. Of three documents
    the second of which cannot be opened, three objects come out, the
    second with the error and no hit, the others with their hit. *)
Theorem failure_is_isolated a before f after e :
  raised db a f = Some e →
  ∃ out ok_rows ok_records,
    main db a (before ++ f :: after) = Some out
    ∧ rows out
      = rows (run db a before) ++ (ok_rows ++ [error_row f e])
        ++ rows (run db a after)
    ∧ jsonl_records out
      = jsonl_records (run db a before)
        ++ (ok_records ++ when (write_jsonl a) [error_record f e])
        ++ jsonl_records (run db a after)
    ∧ ((∃ e', title_of_pdf db f = Raise e') ∨ (∃ e', extract_pdf_text f = Raise e') →
       ok_rows = [] ∧ ok_records = [])
    ∧ row_paper_title (error_row f e) = text "ERROR: " ++ exn_class e
    ∧ row_accession (error_row f e) = []
    ∧ js_paper_title (error_record f e) = text "ERROR: " ++ exn_class e
    ∧ js_accessions (error_record f e) = []
    ∧ js_error (error_record f e) = Some (exn_message e)
    ∧ rows (run db a (before ++ after))
      = rows (run db a before) ++ rows (run db a after)
    ∧ jsonl_records (run db a (before ++ after))
      = jsonl_records (run db a before) ++ jsonl_records (run db a after)
    ∧ (latin_faithful db →
       (λ out, (λ r, (js_accessions r, js_error r)) <$> jsonl_records out)
         <$> main db {| no_jsonl := false; move_done := false |}
               [good "a.pdf"; broken; good "c.pdf"]
       = Some [ ([(text "GEO Series", text "GSE1234")], None);
                ([], Some (text "cannot open broken document"));
                ([(text "GEO Series", text "GSE1234")], None) ]).
Proof.
  intros Hraised.
  exists (run db a (before ++ f :: after)),
    (rows (try_body db a f initial).1), (jsonl_records (try_body db a f initial).1).
  split; [apply main_run; by destruct before|].
  rewrite !run_app, run_cons, (process_raised a f e Hraised).
  split; [done|]. split; [done|]. split.
  { intros [[e' He']|[e' He']]; unfold try_body; rewrite He'; [done|].
    by destruct (title_of_pdf db f). }
  repeat (split; [done|]).
  intros Hdb. rewrite (main_same _ _ (latin_part_same db Hdb)). by vm_compute.
Qed.

Lemma process_one_record a f :
  write_jsonl a = true →
  (move_done a = true → pdf_move f = Ok tt) →
  js_pdf_file <$> jsonl_records (process db a initial f) = [pdf_name f].
Proof.
  intros Hw Hmove. unfold process, try_body, handler. rewrite Hw.
  destruct (title_of_pdf db f) as [title|e]; [|done].
  destruct (extract_pdf_text f) as [t|e]; [|done].
  destruct (move_done a).
  - rewrite Hmove by done. by destruct (nonempty _).
  - by destruct (nonempty _).
Qed.

(** Unless a move fails, there is one object for each file, in the order
    of the files. *)
Lemma records_follow_files a fs :
  write_jsonl a = true →
  Forall (λ f, move_done a = true → pdf_move f = Ok tt) fs →
  js_pdf_file <$> jsonl_records (run db a fs) = pdf_name <$> fs.
Proof.
  intros Hw. induction 1 as [|f fs Hf Hfs IH]; [done|].
  rewrite run_cons. cbn [extend jsonl_records]. rewrite fmap_app, IH.
  by rewrite process_one_record.
Qed.

(** Every file has a row, and its rows bear its name. *)
Lemma process_rows a f :
  rows (process db a initial f) ≠ []
  ∧ Forall (λ r, row_pdf_file r = pdf_name f) (rows (process db a initial f)).
Proof.
  unfold process, try_body, handler.
  destruct (title_of_pdf db f) as [title|e]; [|by split; [|repeat constructor]].
  destruct (extract_pdf_text f) as [t|e]; [|by split; [|repeat constructor]].
  destruct (find_accessions db t) as [|m ms] eqn:Hm; cbn [nonempty];
    destruct (move_done a); try destruct (pdf_move f);
    cbn [rows initial app fmap list_fmap];
    (split; [done|]);
    repeat (first [apply Forall_cons; split; [done|] | apply Forall_nil_2
                  | apply Forall_app; split | apply Forall_fmap, Forall_true; done]).
Qed.

End Batch.

(** ** The model on texts run through the interpreter *)

Example clean_title_dash :
  clean_title basic_latin (text "Title of Paper " ++ [8212]) = text "Title of Paper".
Proof. by vm_compute. Qed.

Example clean_title_spaces :
  clean_title basic_latin (text "  A  Title" ++ [9] ++ text "of Paper : - ")
  = text "A Title of Paper".
Proof. by vm_compute. Qed.

Example clean_title_inner_dashes :
  clean_title basic_latin (text "-- x -") = text "-- x".
Proof. by vm_compute. Qed.

Example trailing_junk_before_line_feed :
  re_sub basic_latin trailing_junk (fun _ => []) (text "ab :-x" ++ [10]) = text "ab :-x".
Proof. by vm_compute. Qed.

Example finditer_project :
  (λ rule, finditer basic_latin rule.2
             (text "PRJEB12345 prjna0001x PRJX1234 PRJE12 PRJDZ99999PRJNA1234"))
    <$> COMPILED !! 0%nat
  = Some [text "PRJEB12345"; text "prjna0001"; text "PRJDZ99999"; text "PRJNA1234"].
Proof. by vm_compute. Qed.

Example finditer_biosample :
  (λ rule, finditer basic_latin rule.2 (text "SAMEA1234567, samn12345678; SAMD123"))
    <$> COMPILED !! 3%nat
  = Some [text "SAMEA1234567"; text "samn12345678"].
Proof. by vm_compute. Qed.

Example splitlines_boundaries :
  splitlines (text "ab" ++ [11] ++ text "c" ++ [13; 10; 13] ++ text "d")
  = [text "ab"; text "c"; []; text "d"].
Proof. by vm_compute. Qed.

Example stem_of_names :
  stem (text "a.b.PDF") = text "a.b" ∧ stem (text ".pdf") = text ".pdf"
  ∧ stem (text "paper.pdf") = text "paper".
Proof. by vm_compute. Qed.

Lemma program_patterns_not_empty db p s n :
  p ∈ ws_run :: trailing_junk :: hyphen_break :: COMPILED.*2 →
  pmatch db p s = Some n → (0 < n)%nat.
Proof.
  intros Hp. apply match_here_positive.
  repeat (apply elem_of_cons in Hp as [->|Hp]; [done|]).
  by apply elem_of_nil in Hp.
Qed.

(** ** Worked runs *)

(** C1, the failing run. With [--move-done], a readable file whose move to
    [done/] fails has already got its row and its object when the move
    raises, and the handler appends an error row and an error object for
    the same file: two objects and two rows for one document. *)
Theorem move_failure_duplicates_record db :
  main db {| no_jsonl := false; move_done := true |} [stuck]
  = Some
      {| rows :=
           [ {| row_pdf_file := text "a.pdf"; row_paper_title := text "a";
                row_accession_type := []; row_accession := [] |};
             {| row_pdf_file := text "a.pdf";
                row_paper_title := text "ERROR: PermissionError";
                row_accession_type := []; row_accession := [] |} ];
         jsonl_records :=
           [ {| js_pdf_file := text "a.pdf"; js_paper_title := text "a";
                js_accessions := []; js_error := None |};
             {| js_pdf_file := text "a.pdf";
                js_paper_title := text "ERROR: PermissionError";
                js_accessions := []; js_error := Some (text "denied") |} ];
         total_matches := 0 |}.
Proof. by vm_compute. Qed.

(** C2, the failing run. A metadata title of four colons passes the test
    of the metadata tier, which looks at the title before it is cleaned;
    cleaning leaves nothing of it, the result is not looked at again, and
    the cascade returns the empty string from the metadata tier instead of
    going on to the file stem "paper". *)
Lemma title_empty_for_colons :
  guess_title_tier basic_latin colons (text "paper") = (Metadata, [])
  ∧ guess_title_from_first_page basic_latin colons (text "paper") = [].
Proof. by vm_compute. Qed.

(** The same with any tables. *)
Lemma title_empty_for_colons_any db :
  guess_title_from_first_page db colons (text "paper") = [].
Proof. by vm_compute. Qed.

Lemma dehyphen_overlap_kept_any db :
  latin_faithful db →
  dehyphen db [97; 45; 10; 98; 45; 10; 99] = [97; 98; 45; 10; 99]
  ∧ collapse_every db [97; 45; 10; 98; 45; 10; 99] = [97; 98; 99].
Proof.
  intros Hdb. apply latin_part_same in Hdb.
  rewrite (dehyphen_same _ _ Hdb), (collapse_every_same _ _ Hdb). by vm_compute.
Qed.

Lemma title_nonempty_unless_junk_witness :
  text "paper" ≠ []
  ∧ guess_title_from_first_page basic_latin numbered (text "paper")
    = from_option (clean_title basic_latin) (text "paper")
        (raw_candidate basic_latin numbered).
Proof.
  split; [done|].
  apply (title_nonempty_unless_junk basic_latin numbered (text "paper")). done.
Defined.

Lemma failure_is_isolated_witness :
  raised basic_latin {| no_jsonl := false; move_done := false |} broken
  = Some {| exn_class := text "FileDataError";
            exn_message := text "cannot open broken document" |}
  ∧ ∃ out,
      main basic_latin {| no_jsonl := false; move_done := false |}
        ([good "a.pdf"] ++ broken :: [good "c.pdf"]) = Some out.
Proof.
  split; [reflexivity|].
  destruct (failure_is_isolated basic_latin
              {| no_jsonl := false; move_done := false |}
              [good "a.pdf"] broken [good "c.pdf"]
              {| exn_class := text "FileDataError";
                 exn_message := text "cannot open broken document" |}
              eq_refl) as (out & _ & _ & Hmain & _).
  by exists out.
Defined.

Lemma largest_span_wins_witness :
  meta_usable
    (default [] (meta_title (three_spans (text "Nature Genetics") (text "RESEARCH ARTICLE"))))
  = false
  ∧ guess_title_from_first_page basic_latin
      (three_spans (text "Nature Genetics") (text "RESEARCH ARTICLE")) (text "paper")
    = text "A Study of Regulatory Elements".
Proof.
  split; [reflexivity|].
  apply (largest_span_wins basic_latin
           (three_spans (text "Nature Genetics") (text "RESEARCH ARTICLE"))
           (text "paper")
           {| page_text := [];
              page_blocks :=
                [[[ span_of (text "Nature Genetics") 10;
                    span_of (text "RESEARCH ARTICLE") 24;
                    span_of (text "A Study of Regulatory Elements") 12 ]]] |}
           [] eq_refl eq_refl).
  - apply basic_latin_faithful.
  - by vm_compute.
Defined.

Lemma uncased_span_selected_witness :
  meta_usable (default [] (meta_title numbered)) = false
  ∧ (5 < length (span_txt (span_of (text "2019-03571") 30)))%nat
  ∧ (-1 < span_sz (span_of (text "2019-03571") 30))%Q
  ∧ guess_title_tier basic_latin numbered (text "paper")
    = (LargestSpan, clean_title basic_latin (span_txt (span_of (text "2019-03571") 30))).
Proof.
  split; [reflexivity|]. split; [simpl; lia|]. split; [reflexivity|].
  apply (uncased_span_selected basic_latin numbered (text "paper") numbered_page []
           [] (span_of (text "2019-03571") 30)
           [span_of (text "Regulatory elements in yeast") 18]);
    try reflexivity.
  - apply Forall_forall. by repeat constructor.
  - simpl. lia.
  - intros x Hx. apply list_elem_of_singleton in Hx as ->. reflexivity.
Defined.

(** * Further properties *)

(** ** Cleaned titles *)

Section CleanedTitles.

Variable db : UnicodeDB.

Lemma tidy_space s c : tidy s = true → c ∈ s → isspace c = true → c = 32.
Proof.
  induction s as [|x s IH]; intros Ht Hc Hsp; [by apply elem_of_nil in Hc|].
  simpl in Ht. apply andb_prop in Ht as [Hx Ht].
  apply elem_of_cons in Hc as [->|Hc]; [|by apply IH].
  rewrite Hsp in Hx. apply andb_prop in Hx as [Hx _]. by apply N.eqb_eq in Hx.
Qed.

Lemma tidy_neighbours s u1 c1 c2 u2 :
  tidy s = true → s = u1 ++ c1 :: c2 :: u2 → isspace c1 = true → isspace c2 = false.
Proof.
  intros Ht -> Hsp. apply tidy_app_r in Ht. simpl in Ht. rewrite Hsp in Ht.
  apply andb_prop in Ht as [Ht _]. apply andb_prop in Ht as [_ Ht].
  by apply negb_true_iff.
Qed.

(** X1. A cleaned title is in normal form: its only white space is the
    space character, no two spaces are neighbours, it neither starts nor
    ends with a space, and it does not end with a dash or a colon. *)
Theorem clean_title_normal_form t :
  (∀ c, c ∈ clean_title db t → isspace c = true → c = 32)
  ∧ (∀ u1 c1 c2 u2,
       clean_title db t = u1 ++ c1 :: c2 :: u2 →
       isspace c1 = true → isspace c2 = false)
  ∧ (∀ c u, clean_title db t = c :: u → isspace c = false)
  ∧ (∀ u c, clean_title db t = u ++ [c] → is_junk c = false).
Proof.
  destruct (clean_title_shape db t) as (Ht & Hs & He).
  split; [|split; [|split]].
  - intros c. by apply tidy_space.
  - intros u1 c1 c2 u2. by apply tidy_neighbours.
  - intros c u Hu. by rewrite Hu in Hs.
  - intros u c Hu. rewrite Hu in He. unfold ends_clean in He.
    by rewrite reverse_snoc in He.
Qed.

(** X2. The titles that cleaning leaves as they are are exactly those in
    normal form: single spaces as the only white space, no white space at
    either end, no white space, dash or colon at the end. *)
Theorem clean_title_fixed_points t :
  clean_title db t = t
  ↔ tidy t = true ∧ starts_clean isspace t ∧ ends_clean is_junk t.
Proof.
  split.
  - intros Ht. rewrite <- Ht. apply (clean_title_shape db t).
  - intros (Ht & Hs & He). rewrite clean_title_eq, tidy_collapse by done.
    rewrite strip_clean; [by apply chop_junk_clean|done|].
    eapply ends_clean_weaken; [apply isspace_is_junk|done].
Qed.

Lemma collapse_length_bounded n (s : list N) :
  (length s ≤ n)%nat →
  (length (re_sub db ws_run (fun _ => [32%N]) s) ≤ length s)%nat.
Proof.
  revert s. induction n as [|n IH]; intros [|c s] Hn; simpl in Hn;
    try reflexivity; try lia.
  destruct (isspace c) eqn:Hc.
  - rewrite collapse_space by done. pose proof (lstrip_length s).
    cbn [app length]. specialize (IH (lstrip s)). lia.
  - rewrite collapse_other by done. cbn [length]. specialize (IH s). lia.
Qed.

Lemma filter_nonspace_nil (w : list N) :
  forallb isspace w = true → filter (λ c, isspace c = false) w = [].
Proof.
  induction w as [|c w IH]; [done|]. simpl. intros H.
  apply andb_prop in H as [Hc Hw]. rewrite filter_cons_False by congruence.
  by apply IH.
Qed.

Lemma collapse_keeps_nonspace n (s : list N) :
  (length s ≤ n)%nat →
  filter (λ c, isspace c = false) (re_sub db ws_run (fun _ => [32%N]) s)
  = filter (λ c, isspace c = false) s.
Proof.
  revert s. induction n as [|n IH]; intros [|c s] Hn; simpl in Hn;
    try reflexivity; try lia.
  destruct (isspace c) eqn:Hc.
  - rewrite collapse_space by done. pose proof (lstrip_length s).
    cbn [app]. rewrite (filter_cons_False _ 32) by (by vm_compute).
    rewrite (filter_cons_False _ c) by congruence.
    rewrite IH by lia.
    destruct (lstrip_split s) as (w & Hs & Hw). rewrite Hs at 2.
    by rewrite filter_app, (filter_nonspace_nil w).
  - rewrite collapse_other by done.
    rewrite !filter_cons_True by done. f_equal. apply IH. lia.
Qed.

(** X3. Cleaning only takes away: a cleaned title is never longer than the
    title; the characters that are not white space, a hyphen, an en dash,
    an em dash or a colon are all kept, in their order; and of the
    characters that are not white space nothing is lost but a run of
    hyphens, en dashes, em dashes and colons at the end, so that those
    inside a title stay where they are. *)
Theorem clean_title_only_removes t :
  (length (clean_title db t) ≤ length t)%nat
  ∧ filter (λ c, is_junk c = false) (clean_title db t)
    = filter (λ c, is_junk c = false) t
  ∧ ∃ cut,
      Forall (λ c, c = 45 ∨ c = 8211 ∨ c = 8212 ∨ c = 58) cut
      ∧ filter (λ c, isspace c = false) t
        = filter (λ c, isspace c = false) (clean_title db t) ++ cut.
Proof.
  split; [|split; [apply clean_title_keeps|]].
  - rewrite clean_title_eq.
    pose proof (collapse_length_bounded (length t) t (le_n _)) as Hc.
    set (c := re_sub db ws_run (fun _ => [32]) t) in *.
    destruct (strip_split c) as (w1 & w2 & Hs & _).
    destruct (chop_junk_split (strip c)) as (w & Hw & _).
    assert (length c
            = length w1 + (length (chop_junk (strip c)) + length w) + length w2)%nat.
    { rewrite Hs at 1. rewrite Hw at 1. rewrite !length_app. lia. }
    lia.
  - rewrite clean_title_eq.
    rewrite <- (collapse_keeps_nonspace (length t) t) by done.
    set (c := re_sub db ws_run (fun _ => [32]) t).
    destruct (strip_split c) as (w1 & w2 & Hs & H1 & H2).
    destruct (chop_junk_split (strip c)) as (w & Hw & Hj).
    exists (filter (λ c, isspace c = false) w). split.
    + apply Forall_forall. intros x Hx.
      apply list_elem_of_filter in Hx as [Hx Hin].
      rewrite forallb_forall in Hj. apply list_elem_of_In, Hj in Hin.
      unfold is_junk in Hin. rewrite Hx in Hin. cbn [orb] in Hin.
      repeat (apply orb_prop in Hin as [Hin|Hin]);
        apply N.eqb_eq in Hin; tauto.
    + rewrite Hs at 1.
      rewrite !filter_app, (filter_nonspace_nil w1), (filter_nonspace_nil w2) by done.
      rewrite app_nil_r. cbn [app]. rewrite Hw at 1. by rewrite filter_app.
Qed.

End CleanedTitles.

(** ** The lower tiers of the cascade *)

Section LowerTiers.

Variable db : UnicodeDB.

Lemma scan_stays_selected (l : list span) (best : Q * list N) :
  nonempty best.2 = true ∨
  (∃ sp, sp ∈ l ∧ qualifies db sp = true ∧ (best.1 < span_sz sp)%Q) →
  nonempty (foldl (span_step db) best l).2 = true.
Proof.
  revert best. induction l as [|x l IH]; intros best [Hb|(sp & Hin & Hq & Hsz)].
  - done.
  - by apply elem_of_nil in Hin.
  - simpl. apply IH. left. unfold span_step.
    destruct (qualifies db x) eqn:Hx; [|done].
    destruct (Qgtb (span_sz x) best.1); [|done]. by apply (qualifies_nonempty db).
  - simpl. apply IH. apply elem_of_cons in Hin as [->|Hin].
    + left. unfold span_step. rewrite Hq.
      apply Qgtb_true in Hsz. rewrite Hsz. by apply (qualifies_nonempty db).
    + unfold span_step. destruct (qualifies db x) eqn:Hx; [|right; by exists sp].
      destruct (Qgtb (span_sz x) best.1); [|right; by exists sp].
      left. by apply (qualifies_nonempty db).
Qed.

(** The scan selects nothing exactly when no qualifying span is larger
    than the -1 it starts from. *)
Lemma scan_nothing blocks :
  nonempty (scan_spans db blocks).2 = false
  ↔ ∀ sp, sp ∈ spans_of blocks → qualifies db sp = true → (span_sz sp <= -1)%Q.
Proof.
  rewrite scan_spans_flat. split.
  - intros Hn sp Hin Hq. destruct (Qlt_le_dec (-1) (span_sz sp)) as [Hlt|Hle]; [|done].
    rewrite scan_stays_selected in Hn; [done|]. right. by exists sp.
  - intros Hall. by rewrite scan_keeps.
Qed.

Lemma first_line_none ls :
  first_line ls = None ↔ ∀ l, l ∈ ls → (length (strip l) ≤ 5)%nat.
Proof.
  induction ls as [|x ls IH]; simpl.
  - split; [|done]. intros _ l Hl. by apply elem_of_nil in Hl.
  - destruct (nonempty (strip x) && (5 <? length (strip x))%nat) eqn:Hx.
    + split; [done|]. intros Hall.
      apply andb_prop in Hx as [_ Hx]. apply Nat.ltb_lt in Hx.
      specialize (Hall x (list_elem_of_here _ _)). lia.
    + rewrite IH. split.
      * intros Hall l Hl. apply elem_of_cons in Hl as [->|Hl]; [|by apply Hall].
        apply andb_false_iff in Hx as [Hx|Hx].
        -- destruct (strip x); [simpl; lia|done].
        -- apply Nat.ltb_ge in Hx. lia.
      * intros Hall l Hl. apply Hall. by right.
Qed.

Lemma first_line_found ls L :
  first_line ls = Some L
  ↔ ∃ pre l post,
      ls = pre ++ l :: post
      ∧ (∀ x, x ∈ pre → (length (strip x) ≤ 5)%nat)
      ∧ (5 < length (strip l))%nat ∧ L = strip l.
Proof.
  revert L. induction ls as [|x ls IH]; intros L; simpl.
  - split; [done|]. intros (pre & l & post & Hls & _). by destruct pre.
  - destruct (nonempty (strip x) && (5 <? length (strip x))%nat) eqn:Hx.
    + apply andb_prop in Hx as [_ Hx]. apply Nat.ltb_lt in Hx. split.
      * intros [= <-]. exists [], x, ls. split; [done|]. split; [|done].
        intros y Hy. by apply elem_of_nil in Hy.
      * intros (pre & l & post & Hls & Hpre & Hl & ->).
        destruct pre as [|y pre]; simpl in Hls.
        -- by injection Hls as -> _.
        -- injection Hls as -> _. specialize (Hpre y (list_elem_of_here _ _)). lia.
    + assert (length (strip x) ≤ 5)%nat as Hshort.
      { apply andb_false_iff in Hx as [Hx|Hx].
        - destruct (strip x); [simpl; lia|done].
        - apply Nat.ltb_ge in Hx. lia. }
      rewrite IH. split.
      * intros (pre & l & post & -> & Hpre & Hl & ->).
        exists (x :: pre), l, post. split; [done|]. split; [|done].
        intros y Hy. apply elem_of_cons in Hy as [->|Hy]; [done|by apply Hpre].
      * intros (pre & l & post & Hls & Hpre & Hl & ->).
        destruct pre as [|y pre]; simpl in Hls.
        -- injection Hls as -> _. lia.
        -- injection Hls as -> ->. exists pre, l, post. split; [done|].
           split; [|done]. intros z Hz. apply Hpre. by right.
Qed.

Lemma file_stem_returned doc stem :
  (guess_title_tier db doc stem).1 = FileStem →
  guess_title_from_first_page db doc stem = stem.
Proof.
  unfold guess_title_from_first_page, guess_title_tier.
  destruct (meta_usable _); [done|]. destruct (pages doc) as [|p ps]; [done|].
  destruct (nonempty _); [done|]. by destruct (first_line _).
Qed.

(** X4. The title is the file stem exactly when the metadata title is not
    usable and the document has no page, or its first page has no
    qualifying span above the size -1 and no line of more than five
    characters after trimming; the stem is then returned as it is, not
    cleaned. *)
Theorem file_stem_tier doc stem :
  ((guess_title_tier db doc stem).1 = FileStem
   ↔ meta_usable (default [] (meta_title doc)) = false
     ∧ match pages doc with
       | [] => True
       | p :: _ =>
           (∀ sp, sp ∈ spans_of (page_blocks p) →
                  qualifies db sp = true → (span_sz sp <= -1)%Q)
           ∧ (∀ l, l ∈ splitlines (page_text p) → (length (strip l) ≤ 5)%nat)
       end)
  ∧ ((guess_title_tier db doc stem).1 = FileStem →
     guess_title_from_first_page db doc stem = stem).
Proof.
  unfold guess_title_from_first_page, guess_title_tier.
  destruct (meta_usable (default [] (meta_title doc))) eqn:Hm.
  { split; [|done]. split; [done|]. by intros [? _]. }
  destruct (pages doc) as [|p ps]; [done|].
  destruct (nonempty (scan_spans db (page_blocks p)).2) eqn:Hs.
  { split; [|done]. split; [done|]. intros (_ & Hall & _).
    apply (proj2 (scan_nothing _)) in Hall. congruence. }
  pose proof (proj1 (scan_nothing _) Hs) as Hnone.
  destruct (first_line (splitlines (page_text p))) as [L|] eqn:HL.
  - split; [|done]. split; [done|]. intros (_ & _ & Hall).
    apply (proj2 (first_line_none _)) in Hall. congruence.
  - split; [|done]. split; [|done]. intros _. split; [done|]. split; [done|].
    by apply first_line_none.
Qed.

(** X5. The first-line tier returns exactly when the metadata title is not
    usable, the first page has no qualifying span above the size -1, and
    the page text has a line of more than five characters after trimming;
    the title is then the cleaned trimmed form of the first such line. *)
Theorem first_line_tier doc stem title :
  guess_title_tier db doc stem = (FirstLine, title)
  ↔ meta_usable (default [] (meta_title doc)) = false
    ∧ ∃ p ps,
        pages doc = p :: ps
        ∧ (∀ sp, sp ∈ spans_of (page_blocks p) →
                 qualifies db sp = true → (span_sz sp <= -1)%Q)
        ∧ ∃ pre l post,
            splitlines (page_text p) = pre ++ l :: post
            ∧ (∀ x, x ∈ pre → (length (strip x) ≤ 5)%nat)
            ∧ (5 < length (strip l))%nat
            ∧ title = clean_title db (strip l).
Proof.
  unfold guess_title_tier.
  destruct (meta_usable (default [] (meta_title doc))) eqn:Hm.
  { split; [done|]. by intros [? _]. }
  destruct (pages doc) as [|p ps].
  { split; [done|]. by intros (_ & ? & ? & ? & _). }
  destruct (nonempty (scan_spans db (page_blocks p)).2) eqn:Hs.
  { split; [done|]. intros (_ & p' & ps' & [= <- <-] & Hall & _).
    apply (proj2 (scan_nothing _)) in Hall. congruence. }
  pose proof (proj1 (scan_nothing _) Hs) as Hnone.
  destruct (first_line (splitlines (page_text p))) as [L|] eqn:HL.
  - apply first_line_found in HL as (pre & l & post & Hls & Hpre & Hl & ->). split.
    + intros [= <-]. split; [done|]. exists p, ps. split; [done|]. split; [done|].
      by exists pre, l, post.
    + intros (_ & p' & ps' & [= <- <-] & _ & pre' & l' & post' & Hls' & Hpre' & Hl' & ->).
      assert (first_line (splitlines (page_text p)) = Some (strip l')) as H1.
      { apply first_line_found. by exists pre', l', post'. }
      assert (first_line (splitlines (page_text p)) = Some (strip l)) as H2.
      { apply first_line_found. by exists pre, l, post. }
      rewrite H1 in H2. by injection H2 as ->.
  - split; [done|].
    intros (_ & p' & ps' & [= <- <-] & _ & pre' & l' & post' & Hls' & Hpre' & Hl' & ->).
    assert (first_line (splitlines (page_text p)) = Some (strip l')) as H1.
    { apply first_line_found. by exists pre', l', post'. }
    congruence.
Qed.

End LowerTiers.

(** ** Matches *)

Section Matches.

Variable db : UnicodeDB.

Lemma run_length_le ic a (s : list N) : (run_length db ic a s ≤ length s)%nat.
Proof.
  induction s as [|c s IH]; simpl; [lia|].
  destruct (atom_match db ic a c); simpl; lia.
Qed.

Lemma backtrack_some k lo e r :
  backtrack k lo e = Some r →
  ∃ j r', (lo ≤ j ≤ lo + e)%nat ∧ k j = Some r' ∧ r = (j + r')%nat.
Proof.
  induction e as [|e IH]; simpl.
  - destruct (k (lo + 0)%nat) as [r'|] eqn:Hk; [|done].
    intros [= <-]. exists (lo + 0)%nat, r'. split; [lia|done].
  - destruct (k (lo + S e)%nat) as [r'|] eqn:Hk.
    + intros [= <-]. exists (lo + S e)%nat, r'. split; [lia|done].
    + intros Hb. destruct (IH Hb) as (j & r' & Hj & Hkj & ->).
      exists j, r'. split; [lia|done].
Qed.

(** A match has at least the least length of its pattern and lies within
    the subject. *)
Lemma match_here_bounds ic its (s : list N) n :
  match_here db ic its s = Some n →
  (min_length its ≤ n ≤ length s)%nat.
Proof.
  revert s n. induction its as [|it k IH]; intros s n.
  - simpl. intros [= <-]. lia.
  - destruct it as [a|a|m a|]; cbn [match_here min_length].
    + destruct s as [|c s]; [done|]. destruct (atom_match db ic a c); [|done].
      destruct (match_here db ic k s) as [r|] eqn:Hk; [|done].
      intros [= <-]. apply IH in Hk. simpl. lia.
    + destruct s as [|c s]; [apply IH|].
      destruct (atom_match db ic a c).
      * destruct (match_here db ic k s) as [r|] eqn:Hk.
        -- intros [= <-]. apply IH in Hk. simpl. lia.
        -- apply IH.
      * apply IH.
    + destruct (run_length db ic a s <? m)%nat eqn:Hm; [done|].
      apply Nat.ltb_ge in Hm. intros Hb.
      apply backtrack_some in Hb as (j & r' & Hj & Hk & ->).
      apply IH in Hk. rewrite length_drop in Hk.
      pose proof (run_length_le ic a s). lia.
    + destruct (at_end s); [apply IH|done].
Qed.

Lemma finditer_from_sound p skip (s m : list N) :
  m ∈ finditer_from db p skip s →
  ∃ pre post, s = pre ++ m ++ post ∧ pmatch db p (m ++ post) = Some (length m)
              ∧ (0 < length m)%nat.
Proof.
  revert skip. induction s as [|c s IH]; intros skip Hm.
  { by apply elem_of_nil in Hm. }
  assert (∀ k, m ∈ finditer_from db p k s →
               ∃ pre post, c :: s = pre ++ m ++ post
                 ∧ pmatch db p (m ++ post) = Some (length m) ∧ (0 < length m)%nat)
    as Hrest.
  { intros k Hk. destruct (IH k Hk) as (pre & post & -> & Hp & Hl).
    by exists (c :: pre), post. }
  simpl in Hm. destruct skip as [|k]; [|by apply (Hrest k)].
  destruct (pmatch db p (c :: s)) as [[|n]|] eqn:Hp; try by apply (Hrest O).
  apply elem_of_cons in Hm as [->|Hm]; [|by apply (Hrest n)].
  pose proof (match_here_bounds _ _ _ _ Hp) as [_ Hn].
  simpl in Hn. exists [], (drop n s). cbn [app length].
  rewrite length_take, take_drop, Nat.min_l by lia.
  split; [done|]. split; [done|lia].
Qed.

Lemma finditer_short p (s : list N) :
  (length s < min_length (items p))%nat → finditer db p s = [].
Proof.
  unfold finditer. generalize O as skip.
  induction s as [|c s IH]; intros skip Hs; [done|].
  simpl in *. destruct skip as [|k]; [|apply IH; lia].
  destruct (pmatch db p (c :: s)) as [[|n]|] eqn:Hp; try (apply IH; lia).
  apply match_here_bounds in Hp. simpl in Hp. lia.
Qed.

Lemma registry_min_length rule :
  rule ∈ COMPILED → (7 ≤ min_length (items rule.2))%nat.
Proof.
  intros Hr. unfold COMPILED in Hr.
  repeat (apply elem_of_cons in Hr as [->|Hr]; [simpl; lia|]).
  by apply elem_of_nil in Hr.
Qed.

Lemma drops_breaks_facts (t t' : list N) :
  drops_breaks t t' →
  (length t' ≤ length t)%nat
  ∧ filter (λ c, c ≠ 45 ∧ c ≠ 10) t' = filter (λ c, c ≠ 45 ∧ c ≠ 10) t
  ∧ (length t' = length t → t' = t).
Proof.
  induction 1 as [|c t t' _ (Hlen & Hfil & Heq)|t t' _ (Hlen & Hfil & Heq)].
  - done.
  - split; [simpl; lia|]. split.
    + destruct (decide (c ≠ 45 ∧ c ≠ 10)).
      * rewrite !filter_cons_True by done. by rewrite Hfil.
      * by rewrite !filter_cons_False.
    + simpl. intros [= Hl]. by rewrite Heq.
  - split; [simpl; lia|]. split.
    + rewrite (filter_cons_False _ 45) by (by intros [? _]).
      by rewrite (filter_cons_False _ 10) by (by intros [_ ?]).
    + simpl. intros Hl. lia.
Qed.

(** X6. Every hit is the upper-cased text of a match of at least seven
    characters: a piece of the text, or of its normalized form, that the
    rule of the hit's label matches where it stands. *)
Theorem hits_come_from_matches t hit :
  hit ∈ find_accessions db t →
  ∃ rule m pre post,
    rule ∈ COMPILED
    ∧ hit = (rule.1, upper db m)
    ∧ (t = pre ++ m ++ post ∨ dehyphen db t = pre ++ m ++ post)
    ∧ pmatch db rule.2 (m ++ post) = Some (length m)
    ∧ (7 ≤ length m)%nat.
Proof.
  rewrite find_accessions_keep_first, elem_of_keep_first. intros [Hc _].
  unfold candidates in Hc. apply list_elem_of_bind in Hc as (rule & Hhit & Hrule).
  apply list_elem_of_fmap in Hhit as (m & -> & Hm).
  assert (∀ s, m ∈ finditer db rule.2 s →
               ∃ pre post, s = pre ++ m ++ post
                 ∧ pmatch db rule.2 (m ++ post) = Some (length m)
                 ∧ (7 ≤ length m)%nat) as Hfound.
  { intros s Hs. apply finditer_from_sound in Hs as (pre & post & -> & Hp & _).
    exists pre, post. split; [done|]. split; [done|].
    pose proof (match_here_bounds _ _ _ _ Hp) as [Hmin _].
    pose proof (registry_min_length rule Hrule). lia. }
  apply elem_of_app in Hm as [Hm|Hm];
    destruct (Hfound _ Hm) as (pre & post & Hs & Hp & Hlen);
    exists rule, m, pre, post; auto.
Qed.

(** X7. A text of fewer than seven characters, the empty text among them,
    has no hit. *)
Theorem short_text_no_hits t :
  (length t < 7)%nat → find_accessions db t = [].
Proof.
  intros Ht. rewrite find_accessions_keep_first.
  assert (candidates db t = []) as ->; [|done].
  unfold candidates.
  pose proof (dehyphen_drops_bounded db (length t) t (le_n _)) as Hd.
  apply drops_breaks_facts in Hd as [Hd _].
  assert (∀ rule, rule ∈ COMPILED →
            (λ m, (rule.1, upper db m))
              <$> (finditer db rule.2 t ++ finditer db rule.2 (dehyphen db t)) = [])
    as Hnone.
  { intros rule Hr. pose proof (registry_min_length rule Hr).
    rewrite !finditer_short by lia. done. }
  revert Hnone. generalize COMPILED as rules.
  induction rules as [|r rules IH]; intros Hnone; [done|].
  cbn [mbind list_bind]. rewrite Hnone by (by left). apply IH.
  intros rule Hr. apply Hnone. by right.
Qed.

Lemma keep_first_all_seen (l : list (list N * list N)) seen :
  (∀ x, x ∈ l → x ∈ seen) → keep_first seen l = [].
Proof.
  induction l as [|x l IH]; intros Hl; [done|]. simpl.
  rewrite decide_True by (apply Hl; by left). apply IH. intros y Hy. apply Hl. by right.
Qed.

(** X8. For a text without a hyphen directly followed by a line feed the
    second pass adds nothing: the hits are, rule by rule, the upper-cased
    matches of the text itself, each where it comes first. *)
Theorem no_break_single_pass t :
  has_hyphen_break t = false →
  find_accessions db t
  = (rule ← COMPILED;
     keep_first ∅ ((λ m, (rule.1, upper db m)) <$> finditer db rule.2 t)).
Proof.
  intros Ht. rewrite find_accessions_keep_first. unfold candidates.
  rewrite (keep_first_by_rule db COMPILED
             (λ rule, finditer db rule.2 t ++ finditer db rule.2 (dehyphen db t)));
    [|apply labels_distinct|set_solver].
  apply list_bind_ext; [|done]. intros rule.
  rewrite dehyphen_without_break by done.
  rewrite fmap_app, keep_first_app.
  rewrite (keep_first_all_seen
             ((λ m, (rule.1, upper db m)) <$> finditer db rule.2 t)
             (list_to_set ((λ m, (rule.1, upper db m)) <$> finditer db rule.2 t) ∪ ∅)).
  - apply app_nil_r.
  - intros x Hx. set_solver.
Qed.

(** X9. The normalization only takes hyphens and line feeds away: its
    result is never longer than the text, every other character is kept
    in its order, and a result as long as the text is the text. *)
Theorem dehyphen_only_removes t :
  (length (dehyphen db t) ≤ length t)%nat
  ∧ filter (λ c, c ≠ 45 ∧ c ≠ 10) (dehyphen db t)
    = filter (λ c, c ≠ 45 ∧ c ≠ 10) t
  ∧ (length (dehyphen db t) = length t → dehyphen db t = t).
Proof.
  apply drops_breaks_facts. by apply (dehyphen_drops_bounded db (length t)).
Qed.

Lemma atom_digit ic c : atom_match db ic [Digit] c = u_decimal db c.
Proof. simpl. apply orb_false_r. Qed.

(** A match of items that ask for a digit holds a digit. *)
Lemma match_here_digit ic its (s : list N) n :
  needs_digit its = true →
  match_here db ic its s = Some n →
  ∃ c, c ∈ take n s ∧ u_decimal db c = true.
Proof.
  revert s n. induction its as [|it k IH]; intros s n Hd; [done|].
  assert (∀ m a, needs_digit k = true →
            match_here db ic (AtLeast m a :: k) s = Some n →
            ∃ c, c ∈ take n s ∧ u_decimal db c = true) as Hrep.
  { intros m a Hk. cbn [match_here].
    destruct (run_length db ic a s <? m)%nat; [done|]. intros Hb.
    apply backtrack_some in Hb as (j & r' & _ & Hm & ->).
    destruct (IH _ _ Hk Hm) as (c & Hc & Hdc). exists c. split; [|done].
    rewrite <- take_take_drop. apply elem_of_app. by right. }
  destruct it as [a|a|m a|].
  - cbn [match_here needs_digit] in *. destruct s as [|c s]; [done|].
    destruct (atom_match db ic a c); [|done].
    destruct (match_here db ic k s) as [r|] eqn:Hk; [|done]. intros [= <-].
    destruct (IH _ _ Hd Hk) as (x & Hx & Hdx). exists x. split; [|done].
    simpl. by right.
  - cbn [match_here needs_digit] in *. destruct s as [|c s]; [by apply IH|].
    destruct (atom_match db ic a c); [|by apply IH].
    destruct (match_here db ic k s) as [r|] eqn:Hk; [|by apply IH]. intros [= <-].
    destruct (IH _ _ Hd Hk) as (x & Hx & Hdx). exists x. split; [|done].
    simpl. by right.
  - destruct m as [|m]; [by apply Hrep|].
    destruct a as [|[| | | |] [|? ?]]; try by apply Hrep.
    cbn [match_here]. destruct (run_length db ic [Digit] s <? S m)%nat eqn:Hm; [done|].
    apply Nat.ltb_ge in Hm. intros Hb.
    apply backtrack_some in Hb as (j & r' & Hj & _ & ->).
    destruct s as [|c s]; [simpl in Hm; lia|].
    cbn [run_length] in Hm. rewrite atom_digit in Hm.
    destruct (u_decimal db c) eqn:Hc; [|lia].
    exists c. split; [|done]. destruct j; [lia|]. simpl. by left.
  - cbn [match_here needs_digit] in *. destruct (at_end s); [by apply IH|done].
Qed.

Lemma finditer_no_digit p (s : list N) :
  needs_digit (items p) = true →
  (∀ c, c ∈ s → u_decimal db c = false) → finditer db p s = [].
Proof.
  intros Hp. unfold finditer. generalize O as skip.
  induction s as [|c s IH]; intros skip Hs; [done|].
  assert (∀ k, finditer_from db p k s = []) as Hrest.
  { intros k. apply IH. intros x Hx. apply Hs. by right. }
  simpl. destruct skip as [|k]; [|done].
  destruct (pmatch db p (c :: s)) as [[|n]|] eqn:Hm; try done.
  apply (match_here_digit _ _ _ _ Hp) in Hm as (x & Hx & Hdx).
  assert (x ∈ c :: s) as Hin.
  { rewrite <- (take_drop (S n) (c :: s)). apply elem_of_app. by left. }
  rewrite (Hs x Hin) in Hdx. done.
Qed.

Lemma registry_needs_digit rule :
  rule ∈ COMPILED → needs_digit (items rule.2) = true.
Proof.
  intros Hr. unfold COMPILED in Hr.
  repeat (apply elem_of_cons in Hr as [->|Hr]; [done|]).
  by apply elem_of_nil in Hr.
Qed.

Lemma drops_breaks_elem (t t' : list N) c : drops_breaks t t' → c ∈ t' → c ∈ t.
Proof.
  induction 1 as [|x t t' _ IH|t t' _ IH]; [done| |].
  - intros [->|?]%elem_of_cons; [by left|]. right. by apply IH.
  - intros Hc. right. right. by apply IH.
Qed.

(** X20. A text without a decimal digit has no hit. *)
Theorem no_digit_no_hits t :
  (∀ c, c ∈ t → u_decimal db c = false) → find_accessions db t = [].
Proof.
  intros Ht. rewrite find_accessions_keep_first.
  assert (candidates db t = []) as ->; [|done].
  unfold candidates.
  pose proof (dehyphen_drops_bounded db (length t) t (le_n _)) as Hd.
  assert (∀ rule, rule ∈ COMPILED →
            (λ m, (rule.1, upper db m))
              <$> (finditer db rule.2 t ++ finditer db rule.2 (dehyphen db t)) = [])
    as Hnone.
  { intros rule Hr. pose proof (registry_needs_digit rule Hr).
    rewrite !finditer_no_digit; try done.
    intros c Hc. apply Ht. by apply (drops_breaks_elem _ _ _ Hd). }
  revert Hnone. generalize COMPILED as rules.
  induction rules as [|r rules IH]; intros Hnone; [done|].
  cbn [mbind list_bind]. rewrite Hnone by (by left). apply IH.
  intros rule Hr. apply Hnone. by right.
Qed.

End Matches.

(** ** The outputs of a batch *)

Section Outputs.

Variable db : UnicodeDB.

Lemma hits_labelled t :
  Forall (λ m : list N * list N, nonempty m.1 = true) (find_accessions db t).
Proof.
  apply Forall_forall. intros hit Hhit.
  rewrite find_accessions_keep_first, elem_of_keep_first in Hhit.
  destruct Hhit as [Hc _]. unfold candidates in Hc.
  apply list_elem_of_bind in Hc as (rule & Hhit & Hrule).
  apply list_elem_of_fmap in Hhit as (m & -> & _). cbn [fst].
  unfold COMPILED in Hrule.
  repeat (apply elem_of_cons in Hrule as [->|Hrule]; [done|]).
  by apply elem_of_nil in Hrule.
Qed.

Lemma filter_carrying_hits (name title : list N) (ms : list (list N * list N)) :
  Forall (λ m : list N * list N, nonempty m.1 = true) ms →
  filter (λ r, carries_accession r = true)
    ((λ m, {| row_pdf_file := name; row_paper_title := title;
              row_accession_type := m.1; row_accession := m.2 |}) <$> ms)
  = (λ m, {| row_pdf_file := name; row_paper_title := title;
             row_accession_type := m.1; row_accession := m.2 |}) <$> ms.
Proof.
  induction 1 as [|m ms Hm _ IH]; [done|]. cbn [fmap list_fmap].
  rewrite filter_cons_True by done. f_equal. apply IH.
Qed.

(** One file: the total grows by the number of its rows with an accession. *)
Lemma process_total a f :
  total_matches (process db a initial f)
  = length (filter (λ r, carries_accession r = true) (rows (process db a initial f))).
Proof.
  unfold process, try_body, handler.
  destruct (title_of_pdf db f) as [title|e]; [|done].
  destruct (extract_pdf_text f) as [t|e]; [|done].
  pose proof (hits_labelled t) as Hl.
  destruct (find_accessions db t) as [|m ms] eqn:Hm; cbn [nonempty];
    destruct (move_done a); try destruct (pdf_move f);
    cbn [rows initial total_matches app fst snd]; try done;
    rewrite ?filter_app, ?length_app, filter_carrying_hits, length_fmap by done;
    simpl; lia.
Qed.

Lemma process_rows_of_records a f :
  rows (process db a initial f)
  = jsonl_records (process db (with_jsonl a) initial f) ≫= rows_of_record.
Proof.
  unfold process, try_body, handler.
  destruct (title_of_pdf db f) as [title|e]; [|done].
  destruct (extract_pdf_text f) as [t|e]; [|done].
  destruct (find_accessions db t) as [|m ms] eqn:Hm; cbn [nonempty];
    unfold with_jsonl, write_jsonl; cbn [move_done no_jsonl negb when];
    destruct (move_done a); try destruct (pdf_move f); try done;
    cbn [rows jsonl_records initial app fst snd
         mbind list_bind rows_of_record js_accessions];
    by rewrite ?app_nil_r.
Qed.

Lemma process_records_flag a f :
  jsonl_records (process db a initial f)
  = when (write_jsonl a) (jsonl_records (process db (with_jsonl a) initial f))
  ∧ rows (process db a initial f) = rows (process db (with_jsonl a) initial f)
  ∧ total_matches (process db a initial f)
    = total_matches (process db (with_jsonl a) initial f).
Proof.
  destruct a as [nj mv]. unfold process, try_body, handler, with_jsonl, write_jsonl.
  cbn [move_done no_jsonl negb].
  destruct (title_of_pdf db f) as [title|e]; [|by destruct nj].
  destruct (extract_pdf_text f) as [t|e]; [|by destruct nj].
  destruct (nonempty (find_accessions db t)), mv;
    try destruct (pdf_move f); by destruct nj.
Qed.

Lemma when_app {A} b (l1 l2 : list A) : when b (l1 ++ l2) = when b l1 ++ when b l2.
Proof. by destruct b. Qed.

(** X10. The total the run reports is the number of rows that carry an
    accession, failed files and failed moves included. *)
Theorem total_counts_accession_rows a fs :
  total_matches (run db a fs)
  = length (filter (λ r, carries_accession r = true) (rows (run db a fs))).
Proof.
  induction fs as [|f fs IH]; [done|].
  rewrite run_cons. cbn [extend total_matches rows].
  by rewrite filter_app, length_app, IH, process_total.
Qed.

(** X11. The table can be read off the JSONL objects: the rows are those
    of the objects in their order, a row for each accession of an object
    and one row with empty accession columns for an object without. *)
Theorem rows_follow_objects a fs :
  rows (run db a fs) = jsonl_records (run db (with_jsonl a) fs) ≫= rows_of_record
  ∧ (write_jsonl a = true →
     rows (run db a fs) = jsonl_records (run db a fs) ≫= rows_of_record).
Proof.
  assert (rows (run db a fs)
          = jsonl_records (run db (with_jsonl a) fs) ≫= rows_of_record) as Hrows.
  { induction fs as [|f fs IH]; [done|].
    rewrite !run_cons. cbn [extend rows jsonl_records].
    by rewrite bind_app, IH, process_rows_of_records. }
  split; [done|]. intros Hw. rewrite Hrows.
  destruct a as [[|] mv]; [done|done].
Qed.

(** X12. [--no-jsonl] changes the JSONL objects only: without it the
    objects are those collected with it none, and the rows and the total
    are the same either way. *)
Theorem no_jsonl_only_drops_objects a fs :
  jsonl_records (run db (without_jsonl a) fs) = []
  ∧ jsonl_records (run db a fs)
    = when (write_jsonl a) (jsonl_records (run db (with_jsonl a) fs))
  ∧ rows (run db (without_jsonl a) fs) = rows (run db (with_jsonl a) fs)
  ∧ total_matches (run db (without_jsonl a) fs)
    = total_matches (run db (with_jsonl a) fs).
Proof.
  assert (∀ a', jsonl_records (run db a' fs)
                = when (write_jsonl a') (jsonl_records (run db (with_jsonl a') fs))
                ∧ rows (run db a' fs) = rows (run db (with_jsonl a') fs)
                ∧ total_matches (run db a' fs)
                  = total_matches (run db (with_jsonl a') fs)) as Hflag.
  { intros a'. induction fs as [|f fs (IH1 & IH2 & IH3)].
    - by destruct (write_jsonl a').
    - rewrite !run_cons. cbn [extend rows jsonl_records total_matches].
      destruct (process_records_flag a' f) as (H1 & H2 & H3).
      rewrite when_app, <- IH1, <- IH2, <- IH3, <- H1, <- H2, <- H3. done. }
  destruct (Hflag (without_jsonl a)) as (H1 & H2 & H3).
  destruct (Hflag a) as (H4 & _).
  split; [by rewrite H1|]. split; [done|]. done.
Qed.

Lemma process_record_names a f :
  write_jsonl a = true →
  js_pdf_file <$> jsonl_records (process db a initial f)
  = if move_fails a f then [pdf_name f; pdf_name f] else [pdf_name f].
Proof.
  intros Hw. unfold process, try_body, handler, move_fails, title_of_pdf, extract_pdf_text.
  rewrite Hw. destruct (pdf_layout f) as [doc|e]; [|by rewrite andb_false_r].
  destruct (pdf_page_texts f) as [ps|e]; [|by rewrite andb_false_r].
  destruct (move_done a); [|by destruct (nonempty _)].
  destruct (pdf_move f); by destruct (nonempty _).
Qed.

(** X13. With the JSONL output on there is an object for each file, in the
    order of the files, and a second one right after it for exactly the
    files that are read without failure and whose move fails. *)
Theorem objects_follow_files a fs :
  write_jsonl a = true →
  js_pdf_file <$> jsonl_records (run db a fs)
  = fs ≫= λ f, if move_fails a f then [pdf_name f; pdf_name f] else [pdf_name f].
Proof.
  intros Hw. induction fs as [|f fs IH]; [done|].
  rewrite run_cons. cbn [extend jsonl_records mbind list_bind].
  by rewrite fmap_app, IH, process_record_names.
Qed.

Lemma process_records_shape a f :
  Forall (λ r,
    NoDup (js_accessions r)
    ∧ js_pdf_file r = pdf_name f
    ∧ match js_error r with
      | Some msg =>
          ∃ e, first_failure a f = Some e
               ∧ js_paper_title r = text "ERROR: " ++ exn_class e
               ∧ msg = exn_message e
               ∧ js_accessions r = []
      | None =>
          ∃ doc ps,
            pdf_layout f = Ok doc ∧ pdf_page_texts f = Ok ps
            ∧ js_paper_title r
              = guess_title_from_first_page db doc (stem (pdf_name f))
            ∧ js_accessions r = find_accessions db (join [10] ps)
      end)
    (jsonl_records (process db a initial f)).
Proof.
  assert (∀ t, NoDup (find_accessions db t)) as Hnd.
  { intros t. rewrite find_accessions_keep_first. apply NoDup_keep_first. }
  unfold process, try_body, handler, title_of_pdf, extract_pdf_text, first_failure.
  destruct (pdf_layout f) as [doc|e].
  2:{ destruct (write_jsonl a); cbn [jsonl_records initial app when];
        [|apply Forall_nil_2].
      apply Forall_cons. split; [|apply Forall_nil_2].
      split; [constructor|]. split; [done|]. by exists e. }
  destruct (pdf_page_texts f) as [ps|e].
  2:{ destruct (write_jsonl a); cbn [jsonl_records initial app when];
        [|apply Forall_nil_2].
      apply Forall_cons. split; [|apply Forall_nil_2].
      split; [constructor|]. split; [done|]. by exists e. }
  destruct (find_accessions db (join [10] ps)) as [|m ms] eqn:Hm;
    cbn [nonempty];
    (destruct (move_done a); [destruct (pdf_move f) as [u|e]|]);
    destruct (write_jsonl a); cbn [jsonl_records initial app when fst snd];
    repeat first
      [ apply Forall_nil_2
      | apply Forall_cons; split
      | by (split; [constructor|]; split; [done|]; exists e)
      | by (split; [constructor|]; split; [done|]; exists doc, ps; rewrite ?Hm)
      | by (split; [rewrite <- Hm; apply Hnd|]; split; [done|];
            exists doc, ps; rewrite ?Hm) ].
Qed.

(** X14. Every JSONL object is that of a file of the run, under its name,
    and lists no accession twice. An object with an error field is the
    record of the exception that ended the processing of that file, the
    one raised by the first step that fails among the title inference,
    the text extraction and, with [--move-done], the move: its title is
    "ERROR: " and the class of that exception, the field is the message of
    that exception, and it lists no accession. An object without an error
    field is that of a file read without failure: its title is the one
    inferred from the document of the file and the file stem, and its
    accessions are those found in the page texts joined by line feeds. *)
Theorem objects_well_formed a fs :
  Forall (λ r,
    NoDup (js_accessions r)
    ∧ ∃ f,
        f ∈ fs ∧ js_pdf_file r = pdf_name f
        ∧ match js_error r with
          | Some msg =>
              ∃ e, first_failure a f = Some e
                   ∧ js_paper_title r = text "ERROR: " ++ exn_class e
                   ∧ msg = exn_message e
                   ∧ js_accessions r = []
          | None =>
              ∃ doc ps,
                pdf_layout f = Ok doc ∧ pdf_page_texts f = Ok ps
                ∧ js_paper_title r
                  = guess_title_from_first_page db doc (stem (pdf_name f))
                ∧ js_accessions r = find_accessions db (join [10] ps)
          end)
    (jsonl_records (run db a fs)).
Proof.
  induction fs as [|f fs IH]; [constructor|].
  rewrite run_cons. cbn [extend jsonl_records].
  apply Forall_app. split.
  - eapply Forall_impl; [apply process_records_shape|].
    intros r (Hnd & Hname & Hr). split; [done|].
    exists f. split; [apply list_elem_of_here|]. by split.
  - eapply Forall_impl; [apply IH|].
    intros r (Hnd & g & Hg & Hr). split; [done|].
    exists g. split; [by apply list_elem_of_further|done].
Qed.

(** X15. A batch can be split: the output for the files of two non-empty
    batches taken together is the output of the first with that of the
    second appended, the totals added. *)
Theorem main_splits a fs1 fs2 out1 out2 :
  main db a fs1 = Some out1 →
  main db a fs2 = Some out2 →
  main db a (fs1 ++ fs2) = Some (extend out1 out2).
Proof.
  unfold main. destruct fs1 as [|f1 fs1]; [done|]. destruct fs2 as [|f2 fs2]; [done|].
  cbn [nonempty app]. intros [= <-] [= <-]. f_equal.
  apply (run_app db a (f1 :: fs1) (f2 :: fs2)).
Qed.

End Outputs.

(** ** Logging *)

(** X16. The levels of the command line: without [-v] the level is INFO,
    with one or more it is DEBUG, so that WARNING cannot be asked for; and
    a larger verbosity never gives a level of a larger number. A file
    handler is set up exactly for a log file that is given and not the
    empty string, beside the stream handler that is always there. *)
Theorem verbosity_levels :
  (∀ flags log_file,
     (setup_logger (verbose flags) log_file).1
     = match flags with O => INFO | S _ => DEBUG end)
  ∧ (∀ flags log_file, (setup_logger (verbose flags) log_file).1 ≠ WARNING)
  ∧ (∀ v1 v2 f1 f2,
       (v1 ≤ v2)%Z →
       (level_number (setup_logger v2 f2).1 ≤ level_number (setup_logger v1 f1).1)%Z)
  ∧ (∀ v log_file, StreamHandler ∈ (setup_logger v log_file).2)
  ∧ (∀ v log_file path,
       FileHandler path ∈ (setup_logger v log_file).2
       ↔ log_file = Some path ∧ path ≠ []).
Proof.
  assert (∀ flags log_file,
            (setup_logger (verbose flags) log_file).1
            = match flags with O => INFO | S _ => DEBUG end) as Hlevel.
  { intros [|n] log_file; unfold setup_logger, verbose; cbn [fst]; [done|].
    destruct (1 + Z.of_nat (S n) =? 1)%Z eqn:H1; [apply Z.eqb_eq in H1; lia|].
    destruct (2 <=? 1 + Z.of_nat (S n))%Z eqn:H2; [done|].
    apply Z.leb_gt in H2. lia. }
  split; [done|]. split; [|split; [|split]].
  - intros flags log_file. rewrite Hlevel. by destruct flags.
  - intros v1 v2 f1 f2 Hv. unfold setup_logger. cbn [fst].
    destruct (v1 =? 1)%Z eqn:H1, (v2 =? 1)%Z eqn:H2,
      (2 <=? v1)%Z eqn:H3, (2 <=? v2)%Z eqn:H4; simpl; try lia;
      rewrite ?Z.eqb_eq, ?Z.eqb_neq, ?Z.leb_le, ?Z.leb_gt in *; lia.
  - intros v log_file. unfold setup_logger. cbn [snd app]. by left.
  - intros v log_file path. unfold setup_logger. cbn [snd app].
    rewrite elem_of_cons. split.
    + intros [?|Hin]; [done|]. destruct log_file as [p|]; [|by apply elem_of_nil in Hin].
      destruct p as [|c p]; [by apply elem_of_nil in Hin|].
      apply list_elem_of_singleton in Hin. by injection Hin as ->.
    + intros [-> Hp]. right. destruct path; [done|]. by left.
Qed.

(** ** Paths *)

Lemma rfind_spec c (s : list N) i :
  rfind c s = Some i →
  ∃ pre post, s = pre ++ c :: post ∧ length pre = i ∧ c ∉ post.
Proof.
  revert i. induction s as [|x s IH]; intros i; [done|]. simpl.
  destruct (rfind c s) as [j|] eqn:Hj.
  - intros [= <-]. destruct (IH j eq_refl) as (pre & post & -> & <- & Hpost).
    by exists (x :: pre), post.
  - destruct (x =? c) eqn:Hx; [|done]. intros [= <-].
    apply N.eqb_eq in Hx as ->. exists [], s. split; [done|]. split; [done|].
    clear IH. induction s as [|y s IH]; [by intros ?%elem_of_nil|].
    simpl in Hj. destruct (rfind c s) as [j|]; [done|].
    destruct (y =? c) eqn:Hy; [done|]. apply N.eqb_neq in Hy.
    intros [?|?]%elem_of_cons; [done|]. by apply IH.
Qed.

(** X17. A file name is its stem followed by its suffix; the stem of a
    name that is not empty is not empty; and a suffix that is not empty is
    a dot and one or more characters that are not dots. *)
Theorem stem_suffix name :
  stem name ++ suffix name = name
  ∧ (name ≠ [] → stem name ≠ [])
  ∧ (suffix name ≠ [] →
     ∃ rest, suffix name = 46 :: rest ∧ rest ≠ [] ∧ 46 ∉ rest).
Proof.
  split; [|split; [apply stem_nonempty|]].
  - unfold stem, suffix. destruct (rfind 46 name) as [i|]; [|apply app_nil_r].
    destruct ((0 <? i)%nat && (i <? length name - 1)%nat);
      [apply take_drop|apply app_nil_r].
  - unfold suffix. destruct (rfind 46 name) as [i|] eqn:Hi; [|done].
    destruct ((0 <? i)%nat && (i <? length name - 1)%nat) eqn:Hc; [|done].
    intros _. apply rfind_spec in Hi as (pre & post & -> & <- & Hpost).
    apply andb_prop in Hc as [_ Hc]. apply Nat.ltb_lt in Hc.
    rewrite length_app in Hc. simpl in Hc.
    rewrite drop_app_length. exists post. split; [done|]. split; [|done].
    destruct post; [simpl in Hc; lia|done].
Qed.

(** ** The files of a run *)

Lemma str_lt_irrefl a : str_lt a a = false.
Proof.
  induction a as [|x a IH]; [done|]. simpl. by rewrite N.ltb_irrefl.
Qed.

Lemma str_lt_trichotomy a b : str_lt a b = true ∨ a = b ∨ str_lt b a = true.
Proof.
  revert b. induction a as [|x a IH]; intros [|y b]; simpl; auto.
  destruct (N.lt_trichotomy x y) as [Hlt|[->|Hgt]].
  - left. by apply N.ltb_lt in Hlt as ->.
  - rewrite N.ltb_irrefl. destruct (IH b) as [?|[->|?]]; auto.
  - right. right. by apply N.ltb_lt in Hgt as ->.
Qed.

Lemma str_lt_trans a b c :
  str_lt a b = true → str_lt b c = true → str_lt a c = true.
Proof.
  revert b c. induction a as [|x a IH]; intros [|y b] [|z c]; simpl; try done.
  destruct (x <? y) eqn:Hxy, (y <? z) eqn:Hyz, (x <? z) eqn:Hxz,
    (y <? x) eqn:Hyx, (z <? y) eqn:Hzy, (z <? x) eqn:Hzx; try done;
    rewrite ?N.ltb_lt, ?N.ltb_ge in *; try lia.
  apply IH.
Qed.

Lemma str_lt_asym a b : str_lt a b = true → str_lt b a = false.
Proof.
  intros Hab. destruct (str_lt b a) eqn:Hba; [|done].
  pose proof (str_lt_trans _ _ _ Hab Hba) as Haa. by rewrite str_lt_irrefl in Haa.
Qed.

Lemma name_le_total : Total name_le.
Proof.
  intros f g. unfold name_le.
  destruct (str_lt (pdf_name g) (pdf_name f)) eqn:Hgf; [|by left].
  right. by apply str_lt_asym.
Qed.

Lemma name_le_trans : Transitive name_le.
Proof.
  intros f g h. unfold name_le. intros Hgf Hhg.
  destruct (str_lt (pdf_name h) (pdf_name f)) eqn:Hhf; [|done].
  destruct (str_lt_trichotomy (pdf_name f) (pdf_name g)) as [Hlt|[Heq|Hgt]].
  - pose proof (str_lt_trans _ _ _ Hhf Hlt). congruence.
  - rewrite Heq in Hhf. congruence.
  - congruence.
Qed.

Lemma name_le_antisym f g : name_le f g → name_le g f → pdf_name f = pdf_name g.
Proof.
  unfold name_le. intros Hgf Hfg.
  destruct (str_lt_trichotomy (pdf_name f) (pdf_name g)) as [?|[?|?]]; congruence.
Qed.

Lemma elem_of_pdf_files lower entries f :
  f ∈ pdf_files lower entries
  ↔ ∃ e, e ∈ entries ∧ entry_pdf e = f ∧ is_pdf lower e = true.
Proof.
  unfold pdf_files. rewrite merge_sort_Permutation, list_elem_of_fmap.
  split.
  - intros (e & -> & He). apply list_elem_of_In, filter_In in He as [He Hp].
    exists e. by rewrite list_elem_of_In.
  - intros (e & He & <- & Hp). exists e. split; [done|].
    apply list_elem_of_In, filter_In. by rewrite <- list_elem_of_In.
Qed.

(** X18. The files of a run are the regular files of the directory whose
    suffix is ".pdf" after lower-casing, in the order of their names; each
    of them has a stem that is not empty, so that the last tier of the
    title cascade never gives an empty title. *)
Theorem pdf_files_selected (lower : list N → list N) entries :
  lower [] = [] →
  (∀ f, f ∈ pdf_files lower entries
        ↔ ∃ e, e ∈ entries ∧ entry_pdf e = f ∧ entry_is_file e = true
               ∧ lower (suffix (pdf_name f)) = text ".pdf")
  ∧ Sorted name_le (pdf_files lower entries)
  ∧ (∀ f, f ∈ pdf_files lower entries →
          stem (pdf_name f) ≠ [] ∧ suffix (pdf_name f) ≠ []
          ∧ ∀ db doc, (guess_title_tier db doc (stem (pdf_name f))).1 = FileStem →
                      guess_title_from_first_page db doc (stem (pdf_name f)) ≠ []).
Proof.
  intros Hlower.
  assert (∀ f, f ∈ pdf_files lower entries
               ↔ ∃ e, e ∈ entries ∧ entry_pdf e = f ∧ entry_is_file e = true
                      ∧ lower (suffix (pdf_name f)) = text ".pdf") as Hsel.
  { intros f. rewrite elem_of_pdf_files. unfold is_pdf. split.
    - intros (e & He & <- & Hp). apply andb_prop in Hp as [Hf Hs].
      apply bool_decide_eq_true in Hs. by exists e.
    - intros (e & He & <- & Hf & Hs). exists e. split; [done|]. split; [done|].
      rewrite Hf. by apply bool_decide_eq_true. }
  split; [done|]. split.
  - apply (Sorted_merge_sort name_le (Total0 := name_le_total)).
  - intros f Hf. apply Hsel in Hf as (e & _ & _ & _ & Hs).
    assert (suffix (pdf_name f) ≠ []) as Hsuf.
    { intros Hnil. rewrite Hnil, Hlower in Hs. done. }
    assert (stem (pdf_name f) ≠ []) as Hstem.
    { apply stem_nonempty. intros Hnil. by rewrite Hnil in Hsuf. }
    split; [done|]. split; [done|]. intros db doc Ht.
    by rewrite (file_stem_returned db doc _ Ht).
Qed.

Lemma List_filter_Permutation {A} (f : A → bool) (l l' : list A) :
  l ≡ₚ l' → List.filter f l ≡ₚ List.filter f l'.
Proof.
  induction 1 as [|x l l' _ IH|x y l|l l' l'' _ IH1 _ IH2]; simpl.
  - done.
  - destruct (f x); [by constructor|done].
  - destruct (f x), (f y); try done. apply perm_swap.
  - by etrans.
Qed.

(** X19. The files of a run and their order do not depend on the order in
    which the directory lists its entries, the names in a directory being
    distinct. *)
Theorem pdf_files_order_free (lower : list N → list N) entries entries' :
  entries ≡ₚ entries' →
  (∀ e1 e2, e1 ∈ entries → e2 ∈ entries →
            pdf_name (entry_pdf e1) = pdf_name (entry_pdf e2) → e1 = e2) →
  pdf_files lower entries = pdf_files lower entries'.
Proof.
  intros Hperm Hnames.
  apply (Sorted_unique_strong name_le (Transitive0 := name_le_trans)).
  - intros f g Hf Hg Hfg Hgf.
    apply elem_of_pdf_files in Hf as (e1 & He1 & <- & _).
    apply elem_of_pdf_files in Hg as (e2 & He2 & <- & _).
    f_equal. apply Hnames; [done|by rewrite Hperm|]. by apply name_le_antisym.
  - apply (Sorted_merge_sort name_le (Total0 := name_le_total)).
  - apply (Sorted_merge_sort name_le (Total0 := name_le_total)).
  - unfold pdf_files. rewrite !merge_sort_Permutation.
    apply fmap_Permutation. by apply List_filter_Permutation.
Qed.

(** ** Further worked runs *)

Example pdf_files_of_listing :
  pdf_name <$> pdf_files latin_lower listing = [text "a.pdf"; text "b.PDF"].
Proof. by vm_compute. Qed.

Lemma hits_come_from_matches_witness :
  (text "GEO Series", text "GSE1234") ∈ find_accessions basic_latin (text "GSE1234")
  ∧ ∃ rule m pre post,
      rule ∈ COMPILED
      ∧ (text "GEO Series", text "GSE1234") = (rule.1, upper basic_latin m)
      ∧ (text "GSE1234" = pre ++ m ++ post
         ∨ dehyphen basic_latin (text "GSE1234") = pre ++ m ++ post)
      ∧ pmatch basic_latin rule.2 (m ++ post) = Some (length m)
      ∧ (7 ≤ length m)%nat.
Proof.
  assert ((text "GEO Series", text "GSE1234")
          ∈ find_accessions basic_latin (text "GSE1234")) as Hin.
  { assert (find_accessions basic_latin (text "GSE1234")
            = [(text "GEO Series", text "GSE1234")]) as -> by (by vm_compute).
    apply list_elem_of_here. }
  split; [exact Hin|]. exact (hits_come_from_matches basic_latin _ _ Hin).
Defined.

Lemma short_text_no_hits_witness :
  (length (text "GSE123") < 7)%nat ∧ find_accessions basic_latin (text "GSE123") = [].
Proof.
  split; [simpl; lia|]. apply short_text_no_hits. simpl. lia.
Defined.

Lemma no_break_single_pass_witness :
  has_hyphen_break (text "GSE1234 and well-known gse1234") = false
  ∧ find_accessions basic_latin (text "GSE1234 and well-known gse1234")
    = (rule ← COMPILED;
       keep_first ∅
         ((λ m, (rule.1, upper basic_latin m))
            <$> finditer basic_latin rule.2 (text "GSE1234 and well-known gse1234"))).
Proof.
  split; [reflexivity|]. apply no_break_single_pass. reflexivity.
Defined.

Lemma no_digit_no_hits_witness :
  (∀ c, c ∈ text "no data here" → u_decimal basic_latin c = false)
  ∧ find_accessions basic_latin (text "no data here") = [].
Proof.
  assert (∀ c, c ∈ text "no data here" → u_decimal basic_latin c = false) as Hno.
  { apply Forall_forall. by repeat constructor. }
  split; [exact Hno|]. by apply no_digit_no_hits.
Defined.

Lemma objects_follow_files_witness :
  write_jsonl {| no_jsonl := false; move_done := true |} = true
  ∧ js_pdf_file
      <$> jsonl_records
            (run basic_latin {| no_jsonl := false; move_done := true |}
               [stuck; broken; good "c.pdf"])
    = [text "a.pdf"; text "a.pdf"; text "b.pdf"; text "c.pdf"].
Proof.
  split; [reflexivity|].
  rewrite (objects_follow_files basic_latin
             {| no_jsonl := false; move_done := true |}
             [stuck; broken; good "c.pdf"] eq_refl).
  reflexivity.
Defined.

Lemma main_splits_witness :
  main basic_latin {| no_jsonl := false; move_done := false |} [good "a.pdf"]
  = Some (run basic_latin {| no_jsonl := false; move_done := false |} [good "a.pdf"])
  ∧ main basic_latin {| no_jsonl := false; move_done := false |}
      ([good "a.pdf"] ++ [broken])
    = Some (extend
              (run basic_latin {| no_jsonl := false; move_done := false |}
                 [good "a.pdf"])
              (run basic_latin {| no_jsonl := false; move_done := false |}
                 [broken])).
Proof.
  split; [reflexivity|]. apply main_splits; reflexivity.
Defined.

Lemma pdf_files_selected_witness :
  latin_lower [] = [] ∧ Sorted name_le (pdf_files latin_lower listing).
Proof.
  split; [reflexivity|]. apply (pdf_files_selected latin_lower listing eq_refl).
Defined.

Lemma pdf_files_order_free_witness :
  listing ≡ₚ reverse listing
  ∧ pdf_files latin_lower listing = pdf_files latin_lower (reverse listing).
Proof.
  assert (listing ≡ₚ reverse listing) as Hperm.
  { symmetry. apply reverse_Permutation. }
  split; [exact Hperm|]. apply pdf_files_order_free; [exact Hperm|].
  intros e1 e2 H1 H2 Hn. unfold listing in H1, H2.
  repeat (apply elem_of_cons in H1 as [->|H1]);
    try (by apply elem_of_nil in H1);
    repeat (apply elem_of_cons in H2 as [->|H2]);
    try (by apply elem_of_nil in H2);
    first [reflexivity | by vm_compute in Hn].
Defined.
